(** * go-errors: Canonical errors, Groups and the chain cursor

    A shallow embedding of [internal/canonical.go], [internal/flags.go],
    [internal/extras.go] and [internal/group.go].

    Conventions of the embedding
    - a Go [error] interface value is an [option error]: [None] is the nil
      interface, [Some e] a value of one of the dynamic types of [error];
    - [uint8] flags are integers in [0, 256) (predicate [Flags.uint8]);
    - a Go slice of strings is an [option (list string)], because
      [reflect.DeepEqual] tells a nil slice from an empty one; a slice of
      [Error] is a list (the code treats nil and empty alike);
    - a [*Group] is represented by the contents it points to, a possibly
      nil [*Group] by an [option Group]; [Append], which mutates its
      receiver, becomes a function returning the receiver's new contents.
      An argument of [Append] is read as it was when the call started, so
      the arguments are taken not to reach the receiver itself, and wrap
      chains are finite (acyclic);
    - a method that can panic returns an [option]: [None] is the panic. *)

From Equations Require Import Equations.
From Stdlib Require Import List ZArith String Ascii Lia Bool Arith.
Import ListNotations.
Local Open Scope string_scope.
Set Warnings "-register-all,-notation-for-abbreviation".

(** ** Flags (internal/flags.go) *)

Module Flags.

(** [type Flags uint8] *)
Definition t := Z.

Definition uint8 (f : t) : Prop := (0 <= f < 256)%Z.

(** [f &^ bits] *)
Definition Clear (f bits : t) : t := Z.ldiff f bits.

(** [f&bits != 0] *)
Definition Has (f bits : t) : bool := negb (Z.land f bits =? 0)%Z.

(** [func (f Flags) Set(bits Flags) Flags]: [f | bits] ([Set] is a
    keyword here, hence the underscore). *)
Definition Set_ (f bits : t) : t := Z.lor f bits.

(** [f ^ bits] *)
Definition Toggle (f bits : t) : t := Z.lxor f bits.

End Flags.

(** [1 << iota] for iota = 0, 1, 2. *)
Definition FlagUnknown : Flags.t := Z.shiftl 1 0.
Definition FlagRetryable : Flags.t := Z.shiftl 1 1.
Definition FlagTimeout : Flags.t := Z.shiftl 1 2.

(** ** Extras (internal/extras.go) *)

(** A slice of strings: [None] is the nil slice. *)
Definition strings := option (list string).

(** [append(s, more...)]: a nil slice stays nil when nothing is added. *)
Definition append_strings (s : strings) (more : list string) : strings :=
  match s, more with
  | None, [] => None
  | None, _ :: _ => Some more
  | Some l, _ => Some (l ++ more)%list
  end.

Module Extras.

Record t := mk {
  Delay : Z;
  Links : strings;
  StackTrace : string;
  Tags : strings
}.

Definition zero : t := mk 0 None "" None.

Definition WithDelay (e : t) (delay : Z) : t :=
  mk delay (Links e) (StackTrace e) (Tags e).

Definition WithStackTrace (e : t) (trace : string) : t :=
  mk (Delay e) (Links e) trace (Tags e).

Definition WithLinks (e : t) (links : list string) : t :=
  mk (Delay e) (append_strings (Links e) links) (StackTrace e) (Tags e).

Definition WithTags (e : t) (tags : list string) : t :=
  mk (Delay e) (Links e) (StackTrace e) (append_strings (Tags e) tags).

End Extras.

(** ** Error values *)

(** [type Canonical struct], over the type [E] of wrapped errors. *)
Record CanonicalOf (E : Type) := mkCanonical {
  Code : string;
  Extras : Extras.t;
  Flags : Flags.t;
  Message : string;
  Namespace : string;
  Wrapped : option E
}.
Arguments mkCanonical {E}.
Arguments Code {E}.
Arguments Extras {E}.
Arguments Flags {E}.
Arguments Message {E}.
Arguments Namespace {E}.
Arguments Wrapped {E}.

(** [type GroupFormatter func([]Error) string]: nil, the package's
    [GroupFormatterDefault], or a function supplied by the caller, named
    by a number. *)
Inductive GroupFormatter : Type :=
| FormatterNil
| FormatterDefault
| FormatterCustom (id : nat).

(** [type Group struct], over the type [M] of members. *)
Record GroupOf (M : Type) := mkGroup {
  Errors : list M;
  Formatter : GroupFormatter
}.
Arguments mkGroup {M}.
Arguments Errors {M}.
Arguments Formatter {M}.

(** The dynamic types an [error] can hold: a foreign error (its text and,
    when it has an [Unwrap() error] method, its cause; it has no [As]
    method), a [Canonical] value, a non-nil [*Group], a [chain].  Of
    these only [Canonical] implements the [Error] interface, so a
    [[]Error] is a list of [Canonical]; pointers to [Canonical] and
    implementations of [Error] outside the package are left out. *)
Inductive error : Type :=
| Foreign (text : string) (cause : option error)
| ECanonical (c : CanonicalOf error)
| EGroup (g : GroupOf (CanonicalOf error))
| EChain (members : list (CanonicalOf error)).

Notation Canonical := (CanonicalOf error).
Notation Group := (GroupOf (CanonicalOf error)).

(** The zero value [Canonical{}]. *)
Definition Canonical_zero : Canonical :=
  mkCanonical "" Extras.zero 0%Z "" "" None.

Definition DefaultNamespace : string := "go-stdlib/go-errors".

Definition ErrUnknown : Canonical :=
  mkCanonical "unknown" Extras.zero FlagUnknown "wrapped error is unknown"
              DefaultNamespace None.

(** Induction over error values, with the hypothesis available for the
    cause wrapped by every member of a group or chain. *)
Section error_induction.

Variable P : error -> Prop.

Definition P_cause (o : option error) : Prop :=
  match o with Some e => P e | None => True end.

Hypothesis P_Foreign : forall text cause, P_cause cause -> P (Foreign text cause).
Hypothesis P_Canonical : forall c, P_cause (Wrapped c) -> P (ECanonical c).
Hypothesis P_Group :
  forall g, Forall (fun c => P_cause (Wrapped c)) (Errors g) -> P (EGroup g).
Hypothesis P_Chain :
  forall l, Forall (fun c => P_cause (Wrapped c)) l -> P (EChain l).

Fixpoint error_nested_ind (e : error) : P e :=
  let cause o : P_cause o :=
    match o with Some e' => error_nested_ind e' | None => I end in
  let members :=
    fix members (l : list Canonical) : Forall (fun c => P_cause (Wrapped c)) l :=
      match l with
      | [] => Forall_nil _
      | c :: t => Forall_cons c (cause (Wrapped c)) (members t)
      end in
  match e with
  | Foreign text o => P_Foreign text o (cause o)
  | ECanonical c => P_Canonical c (cause (Wrapped c))
  | EGroup g => P_Group g (members (Errors g))
  | EChain l => P_Chain l (members l)
  end.

End error_induction.

(** ** Unwrap methods and the standard library's errors.As *)

(** [func (c Canonical) Unwrap() error] *)
Definition Canonical_Unwrap (c : Canonical) : option error := Wrapped c.

(** [func (e chain) Unwrap() error]: nil when at most one member is left,
    else the chain [e[1:]]. *)
Definition chain_Unwrap (e : list Canonical) : option error :=
  if (List.length e <=? 1)%nat then None else Some (EChain (skipn 1 e)).

(** [func (g *Group) Unwrap() error], on a possibly nil receiver. *)
Definition Group_Unwrap (g : option Group) : option error :=
  match g with
  | None => None
  | Some g =>
      match Errors g with
      | [] => None
      | [c] => Some (ECanonical c)
      | errs => Some (EChain errs)
      end
  end.

(** [errors.Unwrap]: the [Unwrap] method of the dynamic type. *)
Definition errors_Unwrap (err : error) : option error :=
  match err with
  | Foreign _ cause => cause
  | ECanonical c => Canonical_Unwrap c
  | EGroup g => Group_Unwrap (Some g)
  | EChain e => chain_Unwrap e
  end.

(** The values [errors.As] examines from [err], in order: [err], then
    what its [As] method delegates to (a chain hands the target to its
    member 0), then what its [Unwrap] method returns, and so on. *)
Section unwrap_chain_members.

Variable rec : error -> list error.

Definition wrapped_with (c : Canonical) : list error :=
  match Wrapped c with Some w => rec w | None => [] end.

Fixpoint chain_rest_with (l : list Canonical) : list error :=
  match l with
  | [] => []
  | c :: t =>
      ((ECanonical c :: wrapped_with c) ++
       match t with [] => [] | _ :: _ => EChain t :: chain_rest_with t end)%list
  end.

End unwrap_chain_members.

Fixpoint unwrap_chain (err : error) : list error :=
  err ::
  match err with
  | Foreign _ cause =>
      match cause with Some e => unwrap_chain e | None => [] end
  | ECanonical c => wrapped_with unwrap_chain c
  | EGroup g =>
      match Errors g with
      | [] => []
      | [c] => ECanonical c :: wrapped_with unwrap_chain c
      | errs => EChain errs :: chain_rest_with unwrap_chain errs
      end
  | EChain e => chain_rest_with unwrap_chain e
  end.

Definition unwrap_chain_opt (err : option error) : list error :=
  match err with Some e => unwrap_chain e | None => [] end.

Section errors_As.

Context {T : Type}.

(** The target of the downcast: [assignable e] is the value stored in
    [*target] when the dynamic type of [e] is assignable to it. *)
Variable assignable : error -> option T.

Fixpoint first_assignable (l : list error) : option T :=
  match l with
  | [] => None
  | e :: rest =>
      match assignable e with
      | Some v => Some v
      | None => first_assignable rest
      end
  end.

(** [errors.As(err, &target)]: [None] is [false], [Some v] is [true]
    with [target] set to [v].  It returns at the first examined value
    that is assignable; [errors_As_step] below states one turn of the
    loop of the Go function. *)
Definition errors_As (err : option error) : option T :=
  first_assignable (unwrap_chain_opt err).

(** [func (e chain) As(target any) bool] *)
Definition chain_As (e : list Canonical) : option T :=
  match e with
  | [] => None
  | c :: _ => errors_As (Some (ECanonical c))
  end.

End errors_As.

(** The three targets the package downcasts to: [*Group], [Canonical] and
    the [Error] interface, which only [Canonical] implements. *)
Definition to_Group (e : error) : option Group :=
  match e with EGroup g => Some g | _ => None end.

Definition to_Canonical (e : error) : option Canonical :=
  match e with ECanonical c => Some c | _ => None end.

Definition to_Error (e : error) : option Canonical := to_Canonical e.

(** Size of an error value: the measure of the recursions that follow a
    downcast. *)
Section size_members.

Variable rec : error -> nat.

Definition wrapped_size_with (c : Canonical) : nat :=
  match Wrapped c with Some w => rec w | None => 0 end.

Fixpoint members_size_with (l : list Canonical) : nat :=
  match l with
  | [] => 0
  | c :: t => 2 + wrapped_size_with c + members_size_with t
  end.

End size_members.

Fixpoint size (err : error) : nat :=
  match err with
  | Foreign _ cause => 1 + match cause with Some e => size e | None => 0 end
  | ECanonical c => 1 + wrapped_size_with size c
  | EGroup g => 2 + members_size_with size (Errors g)
  | EChain e => 1 + members_size_with size e
  end.

Fixpoint errs_size (errs : list (option error)) : nat :=
  match errs with
  | [] => 0
  | err :: rest =>
      1 + match err with Some e => size e | None => 0 end + errs_size rest
  end.

(** ** reflect.DeepEqual *)

Definition strings_DeepEqual (a b : strings) : bool :=
  match a, b with
  | None, None => true
  | Some x, Some y =>
      (List.length x =? List.length y)%nat &&
      forallb (fun p => String.eqb (fst p) (snd p)) (combine x y)
  | _, _ => false
  end.

Definition Extras_DeepEqual (a b : Extras.t) : bool :=
  (Extras.Delay a =? Extras.Delay b)%Z &&
  strings_DeepEqual (Extras.Links a) (Extras.Links b) &&
  String.eqb (Extras.StackTrace a) (Extras.StackTrace b) &&
  strings_DeepEqual (Extras.Tags a) (Extras.Tags b).

(** Func values are deeply equal only when both are nil. *)
Definition GroupFormatter_DeepEqual (a b : GroupFormatter) : bool :=
  match a, b with
  | FormatterNil, FormatterNil => true
  | _, _ => false
  end.

Section DeepEqual_members.

Variable rec : error -> error -> bool.

Definition interface_DeepEqual (a b : option error) : bool :=
  match a, b with
  | None, None => true
  | Some x, Some y => rec x y
  | _, _ => false
  end.

Definition Canonical_DeepEqual_with (a b : Canonical) : bool :=
  String.eqb (Code a) (Code b) &&
  Extras_DeepEqual (Extras a) (Extras b) &&
  (Flags a =? Flags b)%Z &&
  String.eqb (Message a) (Message b) &&
  String.eqb (Namespace a) (Namespace b) &&
  interface_DeepEqual (Wrapped a) (Wrapped b).

Fixpoint members_DeepEqual_with (a b : list Canonical) : bool :=
  match a, b with
  | [], [] => true
  | x :: a', y :: b' =>
      Canonical_DeepEqual_with x y && members_DeepEqual_with a' b'
  | _, _ => false
  end.

End DeepEqual_members.

(** Deep equality of two non-nil interface values: same dynamic type and
    deeply equal contents (foreign errors are compared by text and cause). *)
Fixpoint error_DeepEqual (x y : error) {struct x} : bool :=
  match x, y with
  | Foreign t1 c1, Foreign t2 c2 =>
      String.eqb t1 t2 && interface_DeepEqual error_DeepEqual c1 c2
  | ECanonical a, ECanonical b => Canonical_DeepEqual_with error_DeepEqual a b
  | EGroup g1, EGroup g2 =>
      members_DeepEqual_with error_DeepEqual (Errors g1) (Errors g2) &&
      GroupFormatter_DeepEqual (Formatter g1) (Formatter g2)
  | EChain l1, EChain l2 => members_DeepEqual_with error_DeepEqual l1 l2
  | _, _ => false
  end.

Definition Canonical_DeepEqual : Canonical -> Canonical -> bool :=
  Canonical_DeepEqual_with error_DeepEqual.

(** The values the package hands to [reflect.DeepEqual] as [any]: an
    [Extras], a [Canonical], and the [*Canonical] that [new(Canonical)]
    returns. *)
Inductive any : Type :=
| AnyExtras (e : Extras.t)
| AnyCanonical (c : Canonical)
| AnyPtrCanonical (pointee : Canonical).

(** [reflect.DeepEqual(x, y)]: values of distinct types are never deeply
    equal; pointers are deeply equal when what they point to is. *)
Definition reflect_DeepEqual (x y : any) : bool :=
  match x, y with
  | AnyExtras a, AnyExtras b => Extras_DeepEqual a b
  | AnyCanonical a, AnyCanonical b => Canonical_DeepEqual a b
  | AnyPtrCanonical a, AnyPtrCanonical b => Canonical_DeepEqual a b
  | _, _ => false
  end.

(** [new(Canonical)] *)
Definition new_Canonical : any := AnyPtrCanonical Canonical_zero.

(** Every value [errors.As] examines is no larger than the value it
    started from: what the recursions through a downcast decrease on. *)
Lemma wrapped_with_size (c : Canonical) (x : error) :
  P_cause (fun e => forall y, In y (unwrap_chain e) -> size y <= size e) (Wrapped c) ->
  In x (wrapped_with unwrap_chain c) ->
  size x <= wrapped_size_with size c.
Proof.
  unfold wrapped_with, wrapped_size_with.
  destruct (Wrapped c) as [w|]; simpl; intros IH Hx.
  - now apply IH.
  - contradiction.
Qed.

Lemma chain_rest_with_size (l : list Canonical) :
  Forall (fun c => P_cause (fun e => forall y, In y (unwrap_chain e) -> size y <= size e)
                           (Wrapped c)) l ->
  forall x, In x (chain_rest_with unwrap_chain l) ->
            size x <= 1 + members_size_with size l.
Proof.
  induction 1 as [|c t Hc Ht IH]; intros x Hx.
  - contradiction.
  - cbn [chain_rest_with] in Hx. apply in_app_or in Hx.
    cbn [members_size_with]. destruct Hx as [[<- | Hx] | Hx].
    + cbn [size]. lia.
    + apply (wrapped_with_size c x Hc) in Hx. lia.
    + destruct t as [|c' t']; [contradiction|].
      destruct Hx as [<- | Hx].
      * cbn [size]. lia.
      * apply IH in Hx. lia.
Qed.

Lemma unwrap_chain_size (e x : error) :
  In x (unwrap_chain e) -> size x <= size e.
Proof.
  revert x. induction e as [text cause IH | c IH | g IH | l IH]
    using error_nested_ind; intros x Hx.
  - destruct Hx as [<- | Hx]; [lia|].
    destruct cause as [e|]; [|contradiction].
    apply IH in Hx. cbn [size]. lia.
  - destruct Hx as [<- | Hx]; [lia|].
    apply (wrapped_with_size c x IH) in Hx. cbn [size]. lia.
  - destruct Hx as [<- | Hx]; [lia|].
    cbn [size]. destruct (Errors g) as [|c [|c' t]] eqn:Hg.
    + contradiction.
    + cbn [members_size_with]. destruct Hx as [<- | Hx].
      * cbn [size]. lia.
      * inversion IH as [|? ? Hc _]; subst.
        apply (wrapped_with_size c x Hc) in Hx. lia.
    + destruct Hx as [<- | Hx].
      * cbn [size]. lia.
      * apply (chain_rest_with_size _ IH) in Hx. lia.
  - destruct Hx as [<- | Hx]; [lia|].
    apply (chain_rest_with_size _ IH) in Hx. cbn [size]. lia.
Qed.

Lemma first_assignable_In {T : Type} (assignable : error -> option T)
      (l : list error) (v : T) :
  first_assignable assignable l = Some v ->
  exists x, In x l /\ assignable x = Some v.
Proof.
  induction l as [|e rest IH]; simpl; [discriminate|].
  destruct (assignable e) as [v'|] eqn:He.
  - intros [= <-]. exists e. auto.
  - intros H. destruct (IH H) as (x & Hx & Hv). exists x. auto.
Qed.

Lemma errors_As_Canonical_size (w : error) (c : Canonical) :
  errors_As to_Canonical (Some w) = Some c -> size (ECanonical c) <= size w.
Proof.
  intros H. apply first_assignable_In in H as (x & Hx & Hv).
  destruct x; try discriminate. injection Hv as ->.
  now apply unwrap_chain_size.
Qed.

Lemma errors_As_Group_size (w : error) (g : Group) :
  errors_As to_Group (Some w) = Some g -> size (EGroup g) <= size w.
Proof.
  intros H. apply first_assignable_In in H as (x & Hx & Hv).
  destruct x; try discriminate. injection Hv as ->.
  now apply unwrap_chain_size.
Qed.

(** A value together with the equation that it is the result of the
    expression matched on. *)
Definition inspect {A : Type} (x : A) : { y : A | x = y } := exist _ x eq_refl.

(** ** Canonical (internal/canonical.go) *)

(** [fmt.Sprintf("%s/%s", namespace, code)] *)
Definition ErrorKey (namespace code : string) : string :=
  namespace ++ "/" ++ code.

Definition Canonical_Key (c : Canonical) : string :=
  ErrorKey (Namespace c) (Code c).

(** [return reflect.DeepEqual(c, new(Canonical))] *)
Definition Canonical_IsZero (c : Canonical) : bool :=
  reflect_DeepEqual (AnyCanonical c) new_Canonical.

Definition Canonical_Equal (c : Canonical) (e : option error) : bool :=
  match errors_As to_Canonical e with
  | None => false
  | Some ce =>
      String.eqb (Code c) (Code ce) &&
      String.eqb (Message c) (Message ce) &&
      String.eqb (Namespace c) (Namespace ce) &&
      (Flags c =? Flags ce)%Z &&
      reflect_DeepEqual (AnyExtras (Extras c)) (AnyExtras (Extras ce))
  end.

Definition Canonical_Is (c : Canonical) (target : option error) : bool :=
  match errors_As to_Canonical target with
  | None => false
  | Some err => Canonical_Equal c (Some (ECanonical err))
  end.

Definition Canonical_IsRetryable (c : Canonical) : bool :=
  Flags.Has (Flags c) FlagRetryable.

Definition Canonical_IsTimeout (c : Canonical) : bool :=
  Flags.Has (Flags c) FlagTimeout.

Definition Canonical_IsTransient (c : Canonical) : bool :=
  Flags.Has (Flags c) FlagUnknown.

Definition Canonical_WithExtras (c : Canonical) (extras : Extras.t) : Canonical :=
  mkCanonical (Code c) extras (Flags c) (Message c) (Namespace c) (Wrapped c).

Definition Canonical_WithFlags (c : Canonical) (flags : Flags.t) : Canonical :=
  mkCanonical (Code c) (Extras c) (Flags.Set_ (Flags c) flags) (Message c)
              (Namespace c) (Wrapped c).

Definition Canonical_WithTags (c : Canonical) (tags : list string) : Canonical :=
  mkCanonical (Code c) (Extras.WithTags (Extras c) tags) (Flags c) (Message c)
              (Namespace c) (Wrapped c).

(** [func (c Canonical) Copy() Error].  The recursive call is on the
    [Canonical] that [errors.As] found below [c.Wrapped]. *)
Equations? Canonical_Copy (c : Canonical) : Canonical
  by wf (size (ECanonical c)) lt :=
Canonical_Copy c with inspect (Wrapped c) := {
  | exist _ (Some w) Hw with inspect (errors_As to_Canonical (Some w)) := {
      | exist _ (Some wrapped) Has :=
          mkCanonical (Code c) (Extras c) (Flags c) (Message c) (Namespace c)
                      (Some (ECanonical (Canonical_Copy wrapped)));
      | exist _ None _ :=
          mkCanonical (Code c) (Extras c) (Flags c) (Message c) (Namespace c)
                      (Wrapped c) };
  | exist _ None _ :=
      mkCanonical (Code c) (Extras c) (Flags c) (Message c) (Namespace c)
                  (Wrapped c) }.
Proof.
  apply errors_As_Canonical_size in Has.
  cbn [size] in *. unfold wrapped_size_with at 2. rewrite Hw. lia.
Qed.

(** [func (c Canonical) Wrap(err error) Error] *)
Definition Canonical_Wrap (c : Canonical) (err : option error) : Canonical :=
  match err with
  | None => c
  | Some _ =>
      let wrapping :=
        mkCanonical (Code c) (Extras c) (Flags c) (Message c) (Namespace c) err in
      if Canonical_IsZero c then
        match errors_As to_Canonical err with
        | Some ce => Canonical_Copy ce
        | None => wrapping
        end
      else wrapping
  end.

(** ** Group and chain (internal/group.go) *)

(** [func (g *Group) Slice() []error] *)
Definition Group_Slice (g : Group) : list (option error) :=
  map (fun e => Some (ECanonical e)) (Errors g).

Lemma Group_Slice_size (g : Group) :
  errs_size (Group_Slice g) = members_size_with size (Errors g).
Proof.
  unfold Group_Slice. destruct g as [l f]. cbn [Errors].
  induction l as [|c t IH]; [reflexivity|].
  cbn [map members_size_with errs_size size]. rewrite IH. lia.
Qed.

(** [func (g *Group) Append(errs ...error)], returning the receiver's new
    contents.  The member appended for an argument that holds no group is
    never nil, so the [if e == nil] test of the source never fires. *)
Equations? Group_Append (g : Group) (errs : list (option error)) : Group
  by wf (errs_size errs) lt :=
Group_Append g [] := g;
Group_Append g (None :: rest) := Group_Append g rest;
Group_Append g (Some err :: rest) with inspect (errors_As to_Group (Some err)) := {
  | exist _ (Some eg) Has :=
      Group_Append (Group_Append g (Group_Slice eg)) rest;
  | exist _ None _ :=
      let e :=
        match errors_As to_Error (Some err) with
        | Some e => e
        | None => Canonical_Wrap ErrUnknown (Some err)
        end in
      Group_Append (mkGroup (Errors g ++ [e])%list (Formatter g)) rest }.
Proof.
  all: cbn [errs_size]; try lia.
  apply errors_As_Group_size in Has. cbn [size] in Has.
  rewrite Group_Slice_size. lia.
Qed.

(** [func NewGroup(errs ...error) *Group] *)
Definition NewGroup (errs : list (option error)) : Group :=
  Group_Append (mkGroup [] FormatterDefault) errs.

(** [func (g *Group) Empty() bool] *)
Definition Group_Empty (g : option Group) : bool :=
  match g with
  | None => true
  | Some g => (List.length (Errors g) =? 0)%nat
  end.

(** [func (g *Group) ErrorOrNil() error] *)
Definition Group_ErrorOrNil (g : option Group) : option error :=
  match g with
  | None => None
  | Some g' =>
      if (List.length (Errors g') =? 0)%nat then None else Some (EGroup g')
  end.

(** [func (g *Group) Len() int] *)
Definition Group_Len (g : Group) : nat := List.length (Errors g).

(** ** Rendering *)

Definition newline : string := String (ascii_of_nat 10) "".

(** [strings.Join(elems, sep)] *)
Fixpoint strings_Join_rest (elems : list string) (sep : string) : string :=
  match elems with
  | [] => ""
  | s :: rest => sep ++ s ++ strings_Join_rest rest sep
  end.

Definition strings_Join (elems : list string) (sep : string) : string :=
  match elems with
  | [] => ""
  | [s] => s
  | s :: rest => s ++ strings_Join_rest rest sep
  end.

Section Rendering.

(** What the formatter named [id] returns; [None] when it panics. *)
Variable custom_formatter : nat -> list Canonical -> option string.

Section Error_methods.

(** [err.Error()] on an interface value: the method of the dynamic
    type.  [None] stands for a panic (a nil [Formatter] is called). *)
Variable Error : error -> option string.

(** [func (c Canonical) Error() string] *)
Definition Canonical_Error_with (c : Canonical) : option string :=
  let sb := "[" ++ Namespace c ++ ":" ++ Code c ++ "] " ++ Message c in
  match Wrapped c with
  | None => Some sb
  | Some w =>
      match Error w with
      | Some text => Some (sb ++ newline ++ "-> " ++ text)
      | None => None
      end
  end.

(** The loop filling [points]: [fmt.Sprintf("* %s", err)] prints a
    [Canonical] through its [Format] method, which writes
    [c.Error()].  When that panics, fmt prints a diagnostic in its
    place, which is not modelled: the result is then [None]. *)
Fixpoint points_with (errors : list Canonical) : option (list string) :=
  match errors with
  | [] => Some []
  | err :: rest =>
      match Canonical_Error_with err, points_with rest with
      | Some text, Some points => Some (("* " ++ text) :: points)
      | _, _ => None
      end
  end.

(** [func GroupFormatterDefault(errors []Error) string] *)
Definition GroupFormatterDefault_with (errors : list Canonical) : option string :=
  match List.length errors with
  | 0 => Some ""
  | 1 =>
      match errors with
      | e :: _ => Canonical_Error_with e
      | [] => None
      end
  | _ =>
      match points_with errors with
      | Some points =>
          Some (newline ++ strings_Join points newline ++ newline ++ newline)
      | None => None
      end
  end.

(** [func (g *Group) Error() string]: [g.Formatter(g.Errors)] *)
Definition Group_Error_with (g : Group) : option string :=
  match Formatter g with
  | FormatterNil => None
  | FormatterDefault => GroupFormatterDefault_with (Errors g)
  | FormatterCustom id => custom_formatter id (Errors g)
  end.

(** [func (e chain) Error() string] *)
Definition chain_Error_with (e : list Canonical) : option string :=
  match e with
  | [] => Some ""
  | c :: _ => Canonical_Error_with c
  end.

End Error_methods.

Fixpoint error_Error (err : error) : option string :=
  match err with
  | Foreign text _ => Some text
  | ECanonical c => Canonical_Error_with error_Error c
  | EGroup g => Group_Error_with error_Error g
  | EChain e => chain_Error_with error_Error e
  end.

Definition Canonical_Error : Canonical -> option string :=
  Canonical_Error_with error_Error.

Definition GroupFormatterDefault : list Canonical -> option string :=
  GroupFormatterDefault_with error_Error.

Definition Group_Error : Group -> option string :=
  Group_Error_with error_Error.

Definition chain_Error : list Canonical -> option string :=
  chain_Error_with error_Error.

End Rendering.

(** ** The rest of the package *)

(** The loop of [AsGroup]: [err] is the link whose [Wrapped] is appended
    next, [g] the group so far. *)
Equations? AsGroup_loop (g : Group) (err : Canonical) : Group
  by wf (size (ECanonical err)) lt :=
AsGroup_loop g err with inspect (Wrapped err) := {
  | exist _ None _ := g;
  | exist _ (Some w) Hw with inspect (errors_As to_Canonical (Some w)) := {
      | exist _ (Some ce) Has := AsGroup_loop (Group_Append g [Some w]) ce;
      | exist _ None _ := Group_Append g [Some w] } }.
Proof.
  apply errors_As_Canonical_size in Has.
  cbn [size] in *. unfold wrapped_size_with at 2. rewrite Hw. lia.
Qed.

(** [func (c Canonical) AsGroup() Grouper] *)
Definition Canonical_AsGroup (c : Canonical) : Group :=
  AsGroup_loop (NewGroup [Some (ECanonical c)]) c.

(** [func (c Canonical) Format(s fmt.State, verb rune)]: what is written
    to [s] for the verb, [plus] being [s.Flag('+')]. *)
Definition Canonical_Format (custom : nat -> list Canonical -> option string)
           (c : Canonical) (plus : bool) (verb : ascii) : option string :=
  if Ascii.eqb verb "v" then
    if plus then Group_Error custom (Canonical_AsGroup c)
    else Canonical_Error custom c
  else if Ascii.eqb verb "s" then Canonical_Error custom c
  else if Ascii.eqb verb "q" then Canonical_Error custom c
  else Some "".

(** [func Join(err error, errs ...error) Grouper] (errors.go): the group
    reached from [err] with [errs] appended, or a new group of [err] and
    [errs].  When a group is reached the code appends to that very group,
    so this is its new contents for the calls in which no argument of
    [errs] reaches that group again (such an argument would be read after
    the group has grown); the statements about this branch say so. *)
Definition Join (err : option error) (errs : list (option error)) : Group :=
  match errors_As to_Group err with
  | Some g => Group_Append g errs
  | None => Group_Append (NewGroup [err]) errs
  end.

(** [strconv.FormatUint(n, 2)]: the binary digits of [n], most significant
    first, ["0"] for zero. *)
Fixpoint positive_binary (p : positive) : string :=
  match p with
  | xH => "1"
  | xO q => positive_binary q ++ "0"
  | xI q => positive_binary q ++ "1"
  end.

Definition strconv_FormatUint_2 (n : Z) : string :=
  match n with
  | Zpos p => positive_binary p
  | _ => "0"
  end.

(** [func (f Flags) String() string] *)
Definition Flags_String (f : Flags.t) : string := strconv_FormatUint_2 f.

(** [s[i]] on a slice, for a Go [int] index: [None] is the panic of an
    index out of range. *)
Definition index {A : Type} (s : list A) (i : Z) : option A :=
  if (i <? 0)%Z then None else nth_error s (Z.to_nat i).

(** [s[i] = x] for an index in range. *)
Fixpoint store {A : Type} (s : list A) (i : nat) (x : A) : list A :=
  match s, i with
  | [], _ => []
  | _ :: t, 0 => x :: t
  | y :: t, S k => y :: store t k x
  end.

(** [func (g *Group) Less(i, j int) bool]: the texts are compared byte by
    byte. *)
Definition Group_Less (custom : nat -> list Canonical -> option string)
           (g : Group) (i j : Z) : option bool :=
  match index (Errors g) i, index (Errors g) j with
  | Some a, Some b =>
      match Canonical_Error custom a, Canonical_Error custom b with
      | Some x, Some y => Some (String.ltb x y)
      | _, _ => None
      end
  | _, _ => None
  end.

(** [func (g *Group) Swap(i, j int)], returning the receiver's new
    contents: both right-hand sides are read before either store. *)
Definition Group_Swap (g : Group) (i j : Z) : option Group :=
  match index (Errors g) i, index (Errors g) j with
  | Some a, Some b =>
      Some (mkGroup (store (store (Errors g) (Z.to_nat i) b) (Z.to_nat j) a)
                    (Formatter g))
  | _, _ => None
  end.

(** ** Notions used in the statements *)

(** The member [Append] adds for an argument that holds no group. *)
Definition appended_member (err : error) : Canonical :=
  match errors_As to_Error (Some err) with
  | Some e => e
  | None => Canonical_Wrap ErrUnknown (Some err)
  end.

(** The member [Append] adds for a foreign error: [ErrUnknown] wrapping
    it. *)
Definition unknown_wrapping (err : error) : Canonical :=
  mkCanonical "unknown" Extras.zero FlagUnknown "wrapped error is unknown"
              DefaultNamespace (Some err).

(** No group is reached from the member [c]. *)
Definition holds_no_Group (c : Canonical) : Prop :=
  errors_As to_Group (Some (ECanonical c)) = None.

(** No group is reached from any member of [g]. *)
Definition flat (g : Group) : Prop := Forall holds_no_Group (Errors g).

(** [n] successive calls of [errors.Unwrap], stopping at nil. *)
Fixpoint unwrap_n (n : nat) (err : option error) : option error :=
  match n, err with
  | 0, _ => err
  | S _, None => None
  | S k, Some e => unwrap_n k (errors_Unwrap e)
  end.

(** The member a chain presents: member 0, on which its [Error], [Is]
    and [As] methods work. *)
Definition chain_member (err : option error) : option Canonical :=
  match err with
  | Some (EChain (c :: _)) => Some c
  | _ => None
  end.

(** The value [c] with another wrapped error. *)
Definition with_Wrapped (c : Canonical) (w : option error) : Canonical :=
  mkCanonical (Code c) (Extras c) (Flags c) (Message c) (Namespace c) w.

(** [wrap_chain c l]: [l] lists what [AsGroup] collects from [c] when
    every link wraps nothing, the next link itself, or a last error from
    which neither a group nor a [Canonical] is reached. *)
Inductive wrap_chain : Canonical -> list Canonical -> Prop :=
| wrap_chain_end c :
    Wrapped c = None -> wrap_chain c [c]
| wrap_chain_cause c w :
    Wrapped c = Some w ->
    errors_As to_Group (Some w) = None ->
    errors_As to_Canonical (Some w) = None ->
    wrap_chain c [c; unknown_wrapping w]
| wrap_chain_link c w l :
    Wrapped c = Some (ECanonical w) -> wrap_chain w l -> wrap_chain c (c :: l).

(** The entries of a slice of strings: none for the nil slice. *)
Definition entries (s : strings) : list string :=
  match s with Some l => l | None => [] end.

(** Reading binary digits, most significant first. *)
Fixpoint parse_binary_from (acc : Z) (s : string) : option Z :=
  match s with
  | EmptyString => Some acc
  | String c rest =>
      if Ascii.eqb c "0" then parse_binary_from (2 * acc) rest
      else if Ascii.eqb c "1" then parse_binary_from (2 * acc + 1) rest
      else None
  end.

Definition parse_binary (s : string) : option Z :=
  match s with
  | EmptyString => None
  | String _ _ => parse_binary_from 0 s
  end.

(** The arguments of [Append] that are nil or reach no group. *)
Definition plain_argument (err : option error) : Prop :=
  match err with
  | Some e => errors_As to_Group (Some e) = None
  | None => True
  end.

Definition non_nil (err : option error) : bool :=
  match err with Some _ => true | None => false end.

(** ** Example values *)

Definition not_found : Canonical :=
  mkCanonical "not-found" Extras.zero 0%Z "missing" "svc" None.

Definition member_a : Canonical :=
  mkCanonical "a" Extras.zero 0%Z "first" "svc" None.

Definition member_b : Canonical :=
  mkCanonical "b" Extras.zero FlagRetryable "second" "svc" None.

(** A member that wraps a group of two. *)
Definition wraps_group : Canonical :=
  mkCanonical "outer" Extras.zero 0%Z "batch failed" "svc"
              (Some (EGroup (mkGroup [member_a; member_b] FormatterDefault))).

(** A value whose wrapped error is a foreign error that itself wraps a
    [Canonical], as [fmt.Errorf("ctx: %w", member_b)] builds it. *)
Definition wraps_foreign : Canonical :=
  mkCanonical "a" Extras.zero 0%Z "first" "svc"
              (Some (Foreign "ctx: [svc:b] second" (Some (ECanonical member_b)))).

(** * Properties *)

(** ** errors.As *)

Lemma first_assignable_app {T : Type} (f : error -> option T) (l1 l2 : list error) :
  first_assignable f (l1 ++ l2) =
  match first_assignable f l1 with
  | Some v => Some v
  | None => first_assignable f l2
  end.
Proof.
  induction l1 as [|e l1 IH]; simpl; [reflexivity|].
  destruct (f e); [reflexivity | exact IH].
Qed.

Lemma first_assignable_None {T : Type} (f : error -> option T) (l : list error) :
  first_assignable f l = None <-> Forall (fun x => f x = None) l.
Proof.
  induction l as [|e l IH]; simpl.
  - split; [constructor | reflexivity].
  - destruct (f e) eqn:He.
    + split; [discriminate|]. intros H. inversion H; congruence.
    + rewrite IH. split; [now constructor | now inversion 1].
Qed.

(** The examined values, one turn of the loop of [errors.As] at a time:
    [err], what the [As] method of a chain delegates to, then the values
    examined from [errors.Unwrap(err)]. *)
Lemma unwrap_chain_step (err : error) :
  unwrap_chain err =
  err :: (match err with
          | EChain (c :: _) => unwrap_chain (ECanonical c)
          | _ => []
          end ++ unwrap_chain_opt (errors_Unwrap err))%list.
Proof.
  destruct err as [text cause | c | g | l]; cbn [unwrap_chain errors_Unwrap app].
  - reflexivity.
  - unfold wrapped_with, Canonical_Unwrap. now destruct (Wrapped c).
  - unfold Group_Unwrap. destruct (Errors g) as [|c [|c' t]]; reflexivity.
  - destruct l as [|c [|c' t]]; reflexivity.
Qed.

(** [errors.As], one turn of its loop: the assignability test, the [As]
    method when the value has one, then [Unwrap]. *)
Lemma errors_As_step {T : Type} (f : error -> option T) (err : error) :
  errors_As f (Some err) =
  match f err with
  | Some v => Some v
  | None =>
      match match err with EChain e => chain_As f e | _ => None end with
      | Some v => Some v
      | None => errors_As f (errors_Unwrap err)
      end
  end.
Proof.
  unfold errors_As at 1. cbn [unwrap_chain_opt]. rewrite unwrap_chain_step.
  cbn [first_assignable]. destruct (f err); [reflexivity|].
  rewrite first_assignable_app.
  destruct err as [text cause | c | g | [|c l]]; try reflexivity.
Qed.

Lemma errors_As_nil {T : Type} (f : error -> option T) : errors_As f None = None.
Proof. reflexivity. Qed.

Lemma errors_As_Canonical_self (c : Canonical) :
  errors_As to_Canonical (Some (ECanonical c)) = Some c.
Proof. reflexivity. Qed.

Lemma errors_As_Group_self (g : Group) :
  errors_As to_Group (Some (EGroup g)) = Some g.
Proof. reflexivity. Qed.

Lemma errors_As_Group_Canonical (c : Canonical) :
  errors_As to_Group (Some (ECanonical c)) = errors_As to_Group (Wrapped c).
Proof. now rewrite errors_As_step. Qed.

(** The examined values are closed under examination: what is examined
    from an examined value is examined from the start. *)
Lemma chain_rest_with_closed (l : list Canonical) :
  Forall (fun c => P_cause (fun e => forall y, In y (unwrap_chain e) ->
                                               incl (unwrap_chain y) (unwrap_chain e))
                           (Wrapped c)) l ->
  forall x, In x (chain_rest_with unwrap_chain l) ->
            incl (unwrap_chain x) (chain_rest_with unwrap_chain l).
Proof.
  induction 1 as [|c t Hc Ht IH]; intros x Hx; [contradiction|].
  cbn [chain_rest_with] in *. apply in_app_or in Hx.
  destruct Hx as [[<- | Hx] | Hx].
  - apply incl_appl. cbn [unwrap_chain]. apply incl_refl.
  - apply incl_appl, incl_tl. unfold wrapped_with in *.
    destruct (Wrapped c) as [w|]; [|contradiction]. now apply Hc.
  - apply incl_appr. destruct t as [|c' t']; [contradiction|].
    destruct Hx as [<- | Hx].
    + cbn [unwrap_chain]. apply incl_refl.
    + apply incl_tl. now apply IH.
Qed.

Lemma unwrap_chain_closed (e x : error) :
  In x (unwrap_chain e) -> incl (unwrap_chain x) (unwrap_chain e).
Proof.
  revert x. induction e as [text cause IH | c IH | g IH | l IH]
    using error_nested_ind; intros x Hx;
    (destruct Hx as [<- | Hx]; [apply incl_refl|]); cbn [unwrap_chain];
    apply incl_tl.
  - destruct cause as [e|]; [|contradiction]. now apply IH.
  - unfold wrapped_with in *. destruct (Wrapped c) as [w|]; [|contradiction].
    now apply IH.
  - destruct (Errors g) as [|c [|c' t]] eqn:Hg; [contradiction| |].
    + destruct Hx as [<- | Hx]; [apply incl_refl|]. apply incl_tl.
      inversion IH as [|? ? Hc _]; subst. unfold wrapped_with in *.
      destruct (Wrapped c) as [w|]; [|contradiction]. now apply Hc.
    + destruct Hx as [<- | Hx]; [apply incl_refl|]. apply incl_tl.
      now apply chain_rest_with_closed.
  - now apply chain_rest_with_closed.
Qed.

(** A downcast that fails from [err] fails from every value examined
    from [err]. *)
Lemma errors_As_None_examined {T : Type} (f : error -> option T) (err x : error) :
  errors_As f (Some err) = None ->
  In x (unwrap_chain err) ->
  errors_As f (Some x) = None.
Proof.
  unfold errors_As. cbn [unwrap_chain_opt]. rewrite !first_assignable_None.
  intros Hall Hx. rewrite Forall_forall in *. intros y Hy.
  apply Hall. now apply (unwrap_chain_closed err x).
Qed.

Lemma errors_As_examined {T : Type} (f : error -> option T) (err : error) (v : T) :
  errors_As f (Some err) = Some v ->
  exists x, In x (unwrap_chain err) /\ f x = Some v.
Proof. apply first_assignable_In. Qed.

(** ** Copy and Append, as the source writes them *)

Lemma Canonical_Copy_eq (c : Canonical) :
  Canonical_Copy c =
  match Wrapped c with
  | Some w =>
      match errors_As to_Canonical (Some w) with
      | Some wrapped =>
          mkCanonical (Code c) (Extras c) (Flags c) (Message c) (Namespace c)
                      (Some (ECanonical (Canonical_Copy wrapped)))
      | None =>
          mkCanonical (Code c) (Extras c) (Flags c) (Message c) (Namespace c)
                      (Wrapped c)
      end
  | None =>
      mkCanonical (Code c) (Extras c) (Flags c) (Message c) (Namespace c)
                  (Wrapped c)
  end.
Proof.
  funelim (Canonical_Copy c);
    repeat match goal with
           | H : Wrapped _ = _ |- _ => rewrite H
           | H : errors_As to_Canonical _ = _ |- _ => rewrite H
           end; reflexivity.
Qed.

Lemma Group_Append_nil (g : Group) : Group_Append g [] = g.
Proof. now simp Group_Append. Qed.

Lemma Group_Append_skip (g : Group) (rest : list (option error)) :
  Group_Append g (None :: rest) = Group_Append g rest.
Proof. now simp Group_Append. Qed.

Lemma Group_Append_cons (g : Group) (err : error) (rest : list (option error)) :
  Group_Append g (Some err :: rest) =
  match errors_As to_Group (Some err) with
  | Some eg => Group_Append (Group_Append g (Group_Slice eg)) rest
  | None =>
      let e :=
        match errors_As to_Error (Some err) with
        | Some e => e
        | None => Canonical_Wrap ErrUnknown (Some err)
        end in
      Group_Append (mkGroup (Errors g ++ [e])%list (Formatter g)) rest
  end.
Proof.
  funelim (Group_Append g (Some err :: rest));
    match goal with
    | H : errors_As to_Group _ = _ |- _ => rewrite H
    end; reflexivity.
Qed.

(** Induction following the calls of [Append]: on the rest of the
    arguments, and on the members of a group found in an argument. *)
Lemma Append_calls_ind (P : list (option error) -> Prop) :
  P [] ->
  (forall rest, P rest -> P (None :: rest)) ->
  (forall err eg rest,
      errors_As to_Group (Some err) = Some eg ->
      P (Group_Slice eg) -> P rest -> P (Some err :: rest)) ->
  (forall err rest,
      errors_As to_Group (Some err) = None -> P rest -> P (Some err :: rest)) ->
  forall errs, P errs.
Proof.
  intros Hnil Hskip Hgroup Hone errs.
  remember (errs_size errs) as n eqn:Hn. revert errs Hn.
  induction n as [n IH] using lt_wf_ind. intros errs ->.
  destruct errs as [|[err|] rest].
  - exact Hnil.
  - destruct (errors_As to_Group (Some err)) as [eg|] eqn:Has.
    + apply (Hgroup err eg rest Has).
      * apply (IH (errs_size (Group_Slice eg))); [|reflexivity].
        apply errors_As_Group_size in Has. rewrite Group_Slice_size.
        cbn [size errs_size] in *. lia.
      * apply (IH (errs_size rest)); [cbn [errs_size]; lia | reflexivity].
    + apply (Hone err rest Has).
      apply (IH (errs_size rest)); [cbn [errs_size]; lia | reflexivity].
  - apply Hskip. apply (IH (errs_size rest)); [cbn [errs_size]; lia | reflexivity].
Qed.

Lemma Group_Append_Formatter (errs : list (option error)) :
  forall g, Formatter (Group_Append g errs) = Formatter g.
Proof.
  induction errs as [| rest IH | err eg rest Has IHeg IH | err rest Has IH]
    using Append_calls_ind; intros g.
  - now rewrite Group_Append_nil.
  - now rewrite Group_Append_skip.
  - rewrite Group_Append_cons, Has, IH. apply IHeg.
  - rewrite Group_Append_cons, Has. cbn zeta. now rewrite IH.
Qed.

(** [Append] only adds at the end: the members it adds do not depend on
    the receiver. *)
Lemma Group_Append_Errors (errs : list (option error)) :
  forall g,
    Errors (Group_Append g errs) = (Errors g ++ Errors (NewGroup errs))%list.
Proof.
  unfold NewGroup.
  induction errs as [| rest IH | err eg rest Has IHeg IH | err rest Has IH]
    using Append_calls_ind; intros g.
  - rewrite !Group_Append_nil. cbn [Errors]. now rewrite app_nil_r.
  - rewrite !Group_Append_skip. apply IH.
  - rewrite !Group_Append_cons, Has.
    rewrite IH, IHeg. rewrite (IH (Group_Append _ _)).
    now rewrite <- app_assoc.
  - rewrite !Group_Append_cons, Has. cbn zeta.
    rewrite IH. cbn [Errors app]. rewrite (IH (mkGroup [_] _)). cbn [Errors].
    now rewrite <- app_assoc.
Qed.

(** The loop over the arguments: appending [errs1 ++ errs2] is appending
    [errs1], then [errs2]. *)
Lemma Group_Append_app (errs1 errs2 : list (option error)) :
  forall g, Group_Append g (errs1 ++ errs2) =
            Group_Append (Group_Append g errs1) errs2.
Proof.
  induction errs1 as [|[err|] rest IH]; intros g; cbn [app].
  - now rewrite Group_Append_nil.
  - rewrite !Group_Append_cons.
    destruct (errors_As to_Group (Some err)); cbn zeta; apply IH.
  - rewrite !Group_Append_skip. apply IH.
Qed.

Lemma NewGroup_nil : NewGroup [] = mkGroup [] FormatterDefault.
Proof. unfold NewGroup. now rewrite Group_Append_nil. Qed.

Lemma NewGroup_skip (rest : list (option error)) :
  NewGroup (None :: rest) = NewGroup rest.
Proof. unfold NewGroup. now rewrite Group_Append_skip. Qed.

Lemma NewGroup_cons_Errors (err : error) (rest : list (option error)) :
  Errors (NewGroup (Some err :: rest)) =
  (match errors_As to_Group (Some err) with
   | Some eg => Errors (NewGroup (Group_Slice eg))
   | None => [appended_member err]
   end ++ Errors (NewGroup rest))%list.
Proof.
  unfold NewGroup at 1. rewrite Group_Append_cons.
  destruct (errors_As to_Group (Some err)) as [eg|].
  - rewrite Group_Append_Errors. f_equal.
  - cbn zeta. rewrite Group_Append_Errors. reflexivity.
Qed.

(** ** IsZero and Wrap *)

Lemma Canonical_IsZero_false (c : Canonical) : Canonical_IsZero c = false.
Proof. reflexivity. Qed.

Lemma Canonical_Wrap_some (c : Canonical) (err : error) :
  Canonical_Wrap c (Some err) =
  mkCanonical (Code c) (Extras c) (Flags c) (Message c) (Namespace c) (Some err).
Proof. unfold Canonical_Wrap. now rewrite Canonical_IsZero_false. Qed.

(** ** Flat groups *)

Lemma appended_member_holds_no_Group (err : error) :
  errors_As to_Group (Some err) = None -> holds_no_Group (appended_member err).
Proof.
  intros Hno. unfold appended_member, holds_no_Group.
  destruct (errors_As to_Error (Some err)) as [c|] eqn:HE.
  - apply errors_As_examined in HE as (x & Hx & Hv).
    destruct x; try discriminate. injection Hv as ->.
    now apply (errors_As_None_examined to_Group err).
  - rewrite Canonical_Wrap_some, errors_As_Group_Canonical. exact Hno.
Qed.

Lemma NewGroup_flat (errs : list (option error)) : flat (NewGroup errs).
Proof.
  unfold flat.
  induction errs as [| rest IH | err eg rest Has IHeg IH | err rest Has IH]
    using Append_calls_ind.
  - rewrite NewGroup_nil. constructor.
  - now rewrite NewGroup_skip.
  - rewrite NewGroup_cons_Errors, Has. apply Forall_app. now split.
  - rewrite NewGroup_cons_Errors, Has. constructor; [|exact IH].
    now apply appended_member_holds_no_Group.
Qed.

Lemma Group_Append_flat (g : Group) (errs : list (option error)) :
  flat g -> flat (Group_Append g errs).
Proof.
  unfold flat. intros Hg. rewrite Group_Append_Errors. apply Forall_app.
  split; [exact Hg | apply NewGroup_flat].
Qed.

Lemma NewGroup_Slice_flat (g2 : Group) :
  flat g2 -> Errors (NewGroup (Group_Slice g2)) = Errors g2.
Proof.
  unfold flat, Group_Slice. destruct g2 as [l f]. cbn [Errors].
  induction 1 as [|c t Hc Ht IH]; cbn [map].
  - now rewrite NewGroup_nil.
  - rewrite NewGroup_cons_Errors, Hc, IH. reflexivity.
Qed.


(** ** Deep equality of Extras *)

Lemma strings_DeepEqual_eq (a b : strings) :
  strings_DeepEqual a b = true <-> a = b.
Proof.
  destruct a as [x|], b as [y|]; cbn [strings_DeepEqual];
    try (split; [discriminate | congruence]); [|tauto].
  rewrite andb_true_iff, Nat.eqb_eq. split.
  - intros [Hlen Hall]. f_equal. revert y Hlen Hall.
    induction x as [|s x IH]; intros [|s' y]; try discriminate; [reflexivity|].
    cbn [List.length combine forallb fst snd]. rewrite andb_true_iff, String.eqb_eq.
    intros [= Hlen] [-> Hall]. f_equal. now apply IH.
  - intros [= <-]. split; [reflexivity|].
    induction x as [|s x IH]; [reflexivity|].
    cbn [combine forallb fst snd]. now rewrite String.eqb_refl.
Qed.

Lemma Extras_DeepEqual_eq (a b : Extras.t) :
  Extras_DeepEqual a b = true <-> a = b.
Proof.
  unfold Extras_DeepEqual.
  rewrite !andb_true_iff, Z.eqb_eq, String.eqb_eq, !strings_DeepEqual_eq.
  destruct a, b; cbn. split.
  - intros [[[-> ->] ->] ->]. reflexivity.
  - intros [= -> -> -> ->]. auto.
Qed.

(** [Equal] on a [Canonical] argument compares the five fields. *)
Lemma Canonical_Equal_Canonical (a b : Canonical) :
  Canonical_Equal a (Some (ECanonical b)) =
  String.eqb (Code a) (Code b) &&
  String.eqb (Message a) (Message b) &&
  String.eqb (Namespace a) (Namespace b) &&
  (Flags a =? Flags b)%Z &&
  Extras_DeepEqual (Extras a) (Extras b).
Proof. reflexivity. Qed.

(** ** Copy *)

Lemma Canonical_Copy_fields (c : Canonical) :
  Code (Canonical_Copy c) = Code c /\
  Extras (Canonical_Copy c) = Extras c /\
  Flags (Canonical_Copy c) = Flags c /\
  Message (Canonical_Copy c) = Message c /\
  Namespace (Canonical_Copy c) = Namespace c.
Proof.
  rewrite Canonical_Copy_eq.
  destruct (Wrapped c) as [w|]; [destruct (errors_As to_Canonical (Some w))|];
    cbn; auto.
Qed.

Lemma Canonical_Copy_Equal (c : Canonical) :
  Canonical_Equal (Canonical_Copy c) (Some (ECanonical c)) = true.
Proof.
  rewrite Canonical_Equal_Canonical.
  destruct (Canonical_Copy_fields c) as (-> & -> & -> & -> & ->).
  rewrite !String.eqb_refl, Z.eqb_refl. cbn.
  now apply Extras_DeepEqual_eq.
Qed.

Lemma Canonical_Copy_Wrapped_Canonical (c w : Canonical) :
  Wrapped c = Some (ECanonical w) ->
  Wrapped (Canonical_Copy c) = Some (ECanonical (Canonical_Copy w)).
Proof.
  intros Hw. rewrite (Canonical_Copy_eq c), Hw, errors_As_Canonical_self.
  reflexivity.
Qed.

(** When no [Canonical] is reached from [Wrapped], the copy is the value
    itself: [Wrapped] is shared as it is. *)
Lemma Canonical_Copy_no_Canonical (c : Canonical) :
  errors_As to_Canonical (Wrapped c) = None -> Canonical_Copy c = c.
Proof.
  intros Hno. rewrite Canonical_Copy_eq.
  destruct c as [code extras flags message namespace [w|]]; cbn in *;
    [now rewrite Hno | reflexivity].
Qed.

(** ** Flags *)

Lemma uint8_bits (f : Flags.t) :
  Flags.uint8 f <->
  (0 <= f)%Z /\ forall n, (8 <= n)%Z -> Z.testbit f n = false.
Proof.
  unfold Flags.uint8. split.
  - intros [Hlo Hhi]. split; [exact Hlo|]. intros n Hn.
    destruct (Z.eq_dec f 0) as [->|Hnz]; [apply Z.bits_0|].
    apply Z.bits_above_log2; [exact Hlo|].
    assert (Z.log2 f < 8)%Z by (apply Z.log2_lt_pow2; lia). lia.
  - intros [Hlo Hbits]. split; [exact Hlo|].
    destruct (Z_lt_le_dec f 256) as [Hlt|Hge]; [exact Hlt|].
    assert (Hlog : (8 <= Z.log2 f)%Z) by (apply Z.log2_le_pow2; lia).
    pose proof (Z.bit_log2 f ltac:(lia)) as Hone.
    rewrite (Hbits _ Hlog) in Hone. discriminate.
Qed.

Lemma Flags_Set_uint8 (f bits : Flags.t) :
  Flags.uint8 f -> Flags.uint8 bits -> Flags.uint8 (Flags.Set_ f bits).
Proof.
  rewrite !uint8_bits. intros [Hf Hfb] [Hb Hbb]. unfold Flags.Set_. split.
  - now apply Z.lor_nonneg.
  - intros n Hn. now rewrite Z.lor_spec, Hfb, Hbb.
Qed.

Lemma Flags_Clear_uint8 (f bits : Flags.t) :
  Flags.uint8 f -> Flags.uint8 bits -> Flags.uint8 (Flags.Clear f bits).
Proof.
  rewrite !uint8_bits. intros [Hf Hfb] [Hb Hbb]. unfold Flags.Clear. split.
  - apply Z.ldiff_nonneg. now left.
  - intros n Hn. now rewrite Z.ldiff_spec, Hfb.
Qed.

Lemma Flags_Toggle_uint8 (f bits : Flags.t) :
  Flags.uint8 f -> Flags.uint8 bits -> Flags.uint8 (Flags.Toggle f bits).
Proof.
  rewrite !uint8_bits. intros [Hf Hfb] [Hb Hbb]. unfold Flags.Toggle. split.
  - apply Z.lxor_nonneg. tauto.
  - intros n Hn. now rewrite Z.lxor_spec, Hfb, Hbb.
Qed.

(** On [uint8], [f &^ bits] is [f & ^bits], where [^bits] flips the eight
    bits of [bits]. *)
Lemma Flags_Clear_and_not (f bits : Flags.t) :
  Flags.uint8 f -> Flags.Clear f bits = Z.land f (Z.lxor bits 255).
Proof.
  rewrite uint8_bits. intros [Hf Hfb]. unfold Flags.Clear.
  apply Z.bits_inj'. intros n Hn.
  rewrite Z.ldiff_spec, Z.land_spec, Z.lxor_spec.
  destruct (Z_lt_le_dec n 8) as [Hlt|Hge].
  - change 255%Z with (Z.ones 8). rewrite Z.ones_spec_low by lia.
    now destruct (Z.testbit bits n).
  - now rewrite Hfb.
Qed.

Lemma Flags_Has_true (f bits : Flags.t) :
  Flags.Has f bits = true <-> Z.land f bits <> 0%Z.
Proof. unfold Flags.Has. now rewrite negb_true_iff, Z.eqb_neq. Qed.

(** ** The chain cursor *)

Lemma chain_unwrap_n (i : nat) :
  forall l : list Canonical,
    i < List.length l ->
    unwrap_n i (Some (EChain l)) = Some (EChain (skipn i l)).
Proof.
  induction i as [|i IH]; intros l Hi; [reflexivity|].
  destruct l as [|c [|c' t]]; cbn [List.length] in Hi; try lia.
  cbn [unwrap_n errors_Unwrap]. unfold chain_Unwrap. cbn [List.length Nat.leb skipn].
  apply IH. cbn [List.length]. lia.
Qed.

Lemma chain_unwrap_end (l : list Canonical) :
  l <> [] -> unwrap_n (List.length l) (Some (EChain l)) = None.
Proof.
  induction l as [|c t IH]; intros Hne; [congruence|].
  destruct t as [|c' t']; [reflexivity|].
  cbn [List.length unwrap_n errors_Unwrap]. unfold chain_Unwrap.
  cbn [List.length Nat.leb skipn]. apply IH. discriminate.
Qed.

Lemma hd_error_skipn {A : Type} (i : nat) :
  forall l : list A, hd_error (skipn i l) = nth_error l i.
Proof.
  induction i as [|i IH]; intros [|x l]; try reflexivity. apply IH.
Qed.

(** ** ErrorOrNil *)

Lemma Group_ErrorOrNil_None (g : Group) :
  Group_ErrorOrNil (Some g) = None <-> Errors g = [].
Proof.
  unfold Group_ErrorOrNil. destruct (Errors g); cbn; split; congruence.
Qed.

Lemma Group_ErrorOrNil_Some (g : Group) :
  Errors g <> [] -> Group_ErrorOrNil (Some g) = Some (EGroup g).
Proof.
  unfold Group_ErrorOrNil. destruct (Errors g); cbn; congruence.
Qed.

(** ** The default formatter *)

Lemma string_app_nil_r (s : string) : s ++ "" = s.
Proof. induction s as [|a s IH]; cbn; [reflexivity | now rewrite IH]. Qed.

Lemma string_app_assoc (s t u : string) : (s ++ t) ++ u = s ++ t ++ u.
Proof. induction s as [|a s IH]; cbn; [reflexivity | now rewrite IH]. Qed.

Lemma strings_Join_rest_concat (sep : string) (rest : list string) :
  forall s, s ++ strings_Join_rest rest sep = String.concat sep (s :: rest).
Proof.
  induction rest as [|x rest IH]; intros s; cbn [strings_Join_rest String.concat].
  - apply string_app_nil_r.
  - now rewrite IH.
Qed.

Lemma strings_Join_concat (elems : list string) (sep : string) :
  strings_Join elems sep = String.concat sep elems.
Proof.
  destruct elems as [|s [|x rest]]; try reflexivity.
  unfold strings_Join. apply strings_Join_rest_concat.
Qed.

Lemma points_with_texts (Error : error -> option string)
      (errors : list Canonical) (texts : list string) :
  map (Canonical_Error_with Error) errors = map Some texts ->
  points_with Error errors = Some (map (fun t => "* " ++ t) texts).
Proof.
  revert texts. induction errors as [|e errors IH]; intros [|t texts];
    cbn [map points_with]; try discriminate; [reflexivity|].
  intros [= He Hrest]. now rewrite He, (IH texts Hrest).
Qed.

(** The example of the specification: a kind wrapped around a foreign
    error renders on two lines. *)
Example Canonical_Error_not_found :
  Canonical_Error (fun _ _ => None)
                  (Canonical_Wrap not_found (Some (Foreign "disk full" None))) =
  Some ("[svc:not-found] missing" ++ newline ++ "-> disk full").
Proof. reflexivity. Qed.

(** * The claims *)

(** ** C1 *)

(** C1 (the code departs from it).  Every field of the zero value
    [Canonical{}] equals its zero value: it is deeply equal to a fresh
    zero value.  [IsZero] nevertheless answers false on it, as it does on
    every value, because it compares the [Canonical] with the pointer
    that [new(Canonical)] returns. *)
Theorem C1_IsZero_zero_value :
  Canonical_DeepEqual Canonical_zero Canonical_zero = true /\
  Canonical_IsZero Canonical_zero = false.
Proof. split; reflexivity. Qed.

(** ** C2 *)

(** C2 (the code departs from it).  Wrapping the [Canonical] [not_found]
    with the zero value does not return a copy of [not_found]: since
    [IsZero] is false the result keeps the receiver's empty fields and
    wraps [not_found], and it is not [Equal] to [not_found]. *)
Theorem C2_Wrap_zero_receiver :
  Canonical_Wrap Canonical_zero (Some (ECanonical not_found)) =
    mkCanonical "" Extras.zero 0%Z "" "" (Some (ECanonical not_found)) /\
  Canonical_Equal (Canonical_Wrap Canonical_zero (Some (ECanonical not_found)))
                  (Some (ECanonical not_found)) = false.
Proof. split; reflexivity. Qed.

(** ** C3 *)




(** ** C4 *)

(** C4.  [Unwrap] on a nil group or a group without members is nil; on a
    group of one member it is that member itself; on a group of [N >= 2]
    members it is a chain over the members, and of the successive
    [Unwrap] calls from it the [i]-th ([i < N]) presents member [i] and
    the [N]-th returns nil.  A chain with one member left unwraps to
    nil. *)
Theorem C4_Group_Unwrap_cursor :
  Group_Unwrap None = None /\
  (forall g : Group, Errors g = [] -> Group_Unwrap (Some g) = None) /\
  (forall (g : Group) c,
      Errors g = [c] -> Group_Unwrap (Some g) = Some (ECanonical c)) /\
  (forall g : Group,
      2 <= List.length (Errors g) ->
      Group_Unwrap (Some g) = Some (EChain (Errors g)) /\
      (forall i, i < List.length (Errors g) ->
                 chain_member (unwrap_n i (Group_Unwrap (Some g))) =
                 nth_error (Errors g) i) /\
      unwrap_n (List.length (Errors g)) (Group_Unwrap (Some g)) = None) /\
  (forall c : Canonical, chain_Unwrap [c] = None).
Proof.
  split; [reflexivity|]. split; [|split; [|split]].
  - intros g Hg. unfold Group_Unwrap. now rewrite Hg.
  - intros g c Hg. unfold Group_Unwrap. now rewrite Hg.
  - intros g HN.
    assert (Hchain : Group_Unwrap (Some g) = Some (EChain (Errors g))).
    { unfold Group_Unwrap. destruct (Errors g) as [|c [|c' t]];
        cbn [List.length] in HN; try lia. reflexivity. }
    rewrite Hchain. split; [reflexivity|]. split.
    + intros i Hi. rewrite (chain_unwrap_n i _ Hi), <- hd_error_skipn.
      unfold chain_member. now destruct (skipn i (Errors g)).
    + apply chain_unwrap_end. destruct (Errors g); cbn in HN; [lia | discriminate].
  - reflexivity.
Qed.

Lemma C4_witness :
  chain_member
    (unwrap_n 1 (Group_Unwrap (Some (mkGroup [member_a; member_b] FormatterDefault))))
  = Some member_b.
Proof.
  apply (proj1 (proj2 (proj1 (proj2 (proj2 (proj2 C4_Group_Unwrap_cursor)))
                             (mkGroup [member_a; member_b] FormatterDefault)
                             (le_n 2))) 1).
  cbn. lia.
Defined.

(** ** C5 *)

(** C5.  [a.Equal(b)] holds exactly when [Code], [Message], [Namespace]
    and [Flags] are equal and the [Extras] are deeply equal, that is,
    have the same delay, stack trace, links and tags, a nil slice being
    different from an empty one; it does not depend on what either value
    wraps; and [Equal] is false on an argument from which no [Canonical]
    can be had. *)
Theorem C5_Equal_ignores_Wrapped :
  (forall a b : Canonical,
      Canonical_Equal a (Some (ECanonical b)) = true <->
      Code a = Code b /\ Message a = Message b /\ Namespace a = Namespace b /\
      Flags a = Flags b /\ Extras a = Extras b) /\
  (forall (a b : Canonical) wa wb,
      Canonical_Equal (with_Wrapped a wa) (Some (ECanonical (with_Wrapped b wb))) =
      Canonical_Equal a (Some (ECanonical b))) /\
  (forall (a : Canonical) e,
      errors_As to_Canonical e = None -> Canonical_Equal a e = false).
Proof.
  split; [|split].
  - intros a b. rewrite Canonical_Equal_Canonical.
    rewrite !andb_true_iff, !String.eqb_eq, Z.eqb_eq, Extras_DeepEqual_eq. tauto.
  - intros a b wa wb. now rewrite !Canonical_Equal_Canonical.
  - intros a e Hno. unfold Canonical_Equal. now rewrite Hno.
Qed.

Lemma C5_witness :
  Canonical_Equal member_a (Some (Foreign "disk full" None)) = false /\
  Canonical_Equal member_a (Some (ECanonical (with_Wrapped member_a
                                                (Some (Foreign "disk full" None)))))
  = true.
Proof.
  split.
  - apply (proj2 (proj2 C5_Equal_ignores_Wrapped)). reflexivity.
  - apply (proj1 C5_Equal_ignores_Wrapped). repeat split; reflexivity.
Defined.

(** ** C6 *)

(** C6, as stated, fails: an empty group is a non-nil error, and the
    group made from it has no members, so its [ErrorOrNil] is nil. *)
Lemma C6_counterexample :
  Some (EGroup (NewGroup [])) <> None /\
  Group_ErrorOrNil (Some (NewGroup [Some (EGroup (NewGroup []))])) = None.
Proof. split; [discriminate | reflexivity]. Qed.

(** C6, amended.  [ErrorOrNil] is nil exactly on a nil group and on a
    group without members, and otherwise returns the group itself;
    [NewGroup().ErrorOrNil()] is nil; for a non-nil [err],
    [NewGroup(err).ErrorOrNil()] is nil exactly when a group is reached
    from [err] and that group flattens to no member: it is not nil for
    every [err] from which no group is reached. *)
Theorem C6_ErrorOrNil :
  (forall g : option Group,
      Group_ErrorOrNil g = None <->
      match g with None => True | Some g' => Errors g' = [] end) /\
  (forall g' : Group,
      Errors g' <> [] -> Group_ErrorOrNil (Some g') = Some (EGroup g')) /\
  Group_ErrorOrNil (Some (NewGroup [])) = None /\
  (forall err : error,
      Group_ErrorOrNil (Some (NewGroup [Some err])) = None <->
      exists eg, errors_As to_Group (Some err) = Some eg /\
                 Errors (NewGroup (Group_Slice eg)) = []) /\
  (forall err : error,
      errors_As to_Group (Some err) = None ->
      Group_ErrorOrNil (Some (NewGroup [Some err])) <> None).
Proof.
  assert (Hone : forall err : error,
             Group_ErrorOrNil (Some (NewGroup [Some err])) = None <->
             exists eg, errors_As to_Group (Some err) = Some eg /\
                        Errors (NewGroup (Group_Slice eg)) = []).
  { intros err. rewrite Group_ErrorOrNil_None, NewGroup_cons_Errors, NewGroup_nil.
    cbn [Errors]. rewrite app_nil_r.
    destruct (errors_As to_Group (Some err)) as [eg|]; split.
    - intros H. now exists eg.
    - now intros (eg' & [= <-] & H).
    - discriminate.
    - now intros (eg' & [=] & _). }
  split; [|split; [|split; [|split]]].
  - intros [g'|]; [apply Group_ErrorOrNil_None | now split].
  - apply Group_ErrorOrNil_Some.
  - reflexivity.
  - exact Hone.
  - intros err Hno H. apply Hone in H as (eg & Has & _). congruence.
Qed.

Lemma C6_witness :
  Group_ErrorOrNil (Some (NewGroup [Some (Foreign "disk full" None)])) <> None.
Proof.
  apply (proj2 (proj2 (proj2 (proj2 C6_ErrorOrNil)))). reflexivity.
Defined.

(** ** C7 *)

(** C7 (the code departs from it).  The copy is [Equal] to the original,
    but the wrapped foreign error is not shared: [Copy] puts in its place
    a copy of the [Canonical] found below it, and the copy renders
    differently from the original. *)
Theorem C7_Copy_drops_foreign_wrapper :
  Canonical_Equal (Canonical_Copy wraps_foreign) (Some (ECanonical wraps_foreign))
  = true /\
  Wrapped (Canonical_Copy wraps_foreign) = Some (ECanonical member_b) /\
  Wrapped (Canonical_Copy wraps_foreign) <> Wrapped wraps_foreign /\
  Canonical_Error (fun _ _ => None) (Canonical_Copy wraps_foreign) <>
  Canonical_Error (fun _ _ => None) wraps_foreign.
Proof.
  split; [apply Canonical_Copy_Equal|].
  split; [now vm_compute|].
  split; vm_compute; discriminate.
Qed.

(** ** C8 *)

(** C8.  The default formatter returns the empty string for no member and
    the member's own text for one member; for two or more members whose
    texts are [texts] it returns a newline, the lines ["* " ++ text] in
    the members' order joined by newlines, and two newlines. *)
Theorem C8_GroupFormatterDefault (custom : nat -> list Canonical -> option string) :
  GroupFormatterDefault custom [] = Some "" /\
  (forall e : Canonical,
      GroupFormatterDefault custom [e] = Canonical_Error custom e) /\
  (forall (errors : list Canonical) (texts : list string),
      2 <= List.length errors ->
      map (Canonical_Error custom) errors = map Some texts ->
      GroupFormatterDefault custom errors =
      Some (newline ++ String.concat newline (map (fun t => "* " ++ t) texts)
                    ++ newline ++ newline)) /\
  (forall (e1 e2 : Canonical) (t1 t2 : string),
      Canonical_Error custom e1 = Some t1 ->
      Canonical_Error custom e2 = Some t2 ->
      GroupFormatterDefault custom [e1; e2] =
      Some (newline ++ "* " ++ t1 ++ newline ++ "* " ++ t2
                    ++ newline ++ newline)).
Proof.
  assert (Hmany : forall (errors : list Canonical) (texts : list string),
             2 <= List.length errors ->
             map (Canonical_Error custom) errors = map Some texts ->
             GroupFormatterDefault custom errors =
             Some (newline ++ String.concat newline (map (fun t => "* " ++ t) texts)
                           ++ newline ++ newline)).
  { intros errors texts HN Htexts.
    unfold GroupFormatterDefault, GroupFormatterDefault_with.
    rewrite (points_with_texts _ _ _ Htexts), strings_Join_concat.
    destruct errors as [|e1 [|e2 rest]]; cbn [List.length] in *; try lia.
    reflexivity. }
  split; [reflexivity|]. split; [reflexivity|]. split; [exact Hmany|].
  intros e1 e2 t1 t2 H1 H2.
  rewrite (Hmany [e1; e2] [t1; t2]); [| cbn; lia | cbn [map]; now rewrite H1, H2].
  cbn [map String.concat]. now rewrite !string_app_assoc.
Qed.

Lemma C8_witness :
  GroupFormatterDefault (fun _ _ => None) [member_a; member_b] =
  Some (newline ++ "* [svc:a] first" ++ newline ++ "* [svc:b] second"
                ++ newline ++ newline).
Proof.
  apply (proj2 (proj2 (proj2 (C8_GroupFormatterDefault (fun _ _ => None))))
               member_a member_b "[svc:a] first" "[svc:b] second");
    reflexivity.
Defined.

(** ** C9 *)

(** C9.  On [uint8] values, [Has] is true exactly when [f AND b] is not
    zero, [Set] is [f OR b], [Clear] is [f AND (NOT b)], [Toggle] is
    [f XOR b], bit by bit, and the results are [uint8] values; the
    operations are functions of their operands.  Setting
    [Retryable|Timeout] on 0 gives a value that has [Retryable], and
    clearing [Timeout] from it one that has not [Timeout]. *)
Theorem C9_Flags_bitmask (f b : Flags.t) :
  Flags.uint8 f -> Flags.uint8 b ->
  (Flags.Has f b = true <-> Z.land f b <> 0%Z) /\
  (Flags.Set_ f b = Z.lor f b /\
   forall n, Z.testbit (Flags.Set_ f b) n = Z.testbit f n || Z.testbit b n) /\
  (Flags.Clear f b = Z.land f (Z.lxor b 255%Z) /\
   forall n, Z.testbit (Flags.Clear f b) n = Z.testbit f n && negb (Z.testbit b n)) /\
  (Flags.Toggle f b = Z.lxor f b /\
   forall n, Z.testbit (Flags.Toggle f b) n = xorb (Z.testbit f n) (Z.testbit b n)) /\
  (Flags.uint8 (Flags.Set_ f b) /\ Flags.uint8 (Flags.Clear f b) /\
   Flags.uint8 (Flags.Toggle f b)) /\
  Flags.Has (Flags.Set_ 0%Z (Z.lor FlagRetryable FlagTimeout)) FlagRetryable = true /\
  Flags.Has (Flags.Clear (Flags.Set_ 0%Z (Z.lor FlagRetryable FlagTimeout)) FlagTimeout)
            FlagTimeout = false.
Proof.
  intros Hf Hb. repeat split.
  - now apply Flags_Has_true.
  - now apply Flags_Has_true.
  - intros n. apply Z.lor_spec.
  - now apply Flags_Clear_and_not.
  - intros n. apply Z.ldiff_spec.
  - intros n. apply Z.lxor_spec.
  - now apply Flags_Set_uint8.
  - now apply Flags_Set_uint8.
  - now apply Flags_Clear_uint8.
  - now apply Flags_Clear_uint8.
  - now apply Flags_Toggle_uint8.
  - now apply Flags_Toggle_uint8.
Qed.

Lemma C9_witness :
  Flags.Clear 6%Z FlagTimeout = Z.land 6%Z (Z.lxor FlagTimeout 255%Z) /\
  Flags.uint8 (Flags.Toggle 6%Z FlagTimeout).
Proof.
  assert (H6 : Flags.uint8 6%Z) by (unfold Flags.uint8; lia).
  assert (H4 : Flags.uint8 FlagTimeout) by (unfold Flags.uint8; cbn; lia).
  pose proof (C9_Flags_bitmask 6%Z FlagTimeout H6 H4) as H.
  split; [apply H | apply H].
Defined.

(** ** C10 *)





(** * Further properties *)

(** ** AsGroup *)

Lemma AsGroup_loop_eq (g : Group) (err : Canonical) :
  AsGroup_loop g err =
  match Wrapped err with
  | None => g
  | Some w =>
      match errors_As to_Canonical (Some w) with
      | Some ce => AsGroup_loop (Group_Append g [Some w]) ce
      | None => Group_Append g [Some w]
      end
  end.
Proof.
  funelim (AsGroup_loop g err);
    repeat match goal with
           | H : Wrapped _ = _ |- _ => rewrite H
           | H : errors_As to_Canonical _ = _ |- _ => rewrite H
           end; reflexivity.
Qed.

Lemma Group_Append_one_Errors (g : Group) (err : error) :
  errors_As to_Group (Some err) = None ->
  Errors (Group_Append g [Some err]) = (Errors g ++ [appended_member err])%list.
Proof.
  intros Hno. rewrite Group_Append_Errors, NewGroup_cons_Errors, Hno, NewGroup_nil.
  reflexivity.
Qed.

Lemma wrap_chain_head (c : Canonical) (l : list Canonical) :
  wrap_chain c l -> exists t, l = c :: t.
Proof. destruct 1; eauto. Qed.

Lemma wrap_chain_holds_no_Group (c : Canonical) (l : list Canonical) :
  wrap_chain c l -> holds_no_Group c.
Proof.
  unfold holds_no_Group.
  induction 1 as [c Hw | c w Hw Hg Hc | c w l Hw Hl IH];
    rewrite errors_As_Group_Canonical, Hw; [reflexivity | exact Hg | exact IH].
Qed.

Lemma AsGroup_loop_wrap_chain (c : Canonical) (l : list Canonical) :
  wrap_chain c l ->
  forall g, Errors (AsGroup_loop g c) = (Errors g ++ tl l)%list.
Proof.
  induction 1 as [c Hw | c w Hw Hg Hc | c w l Hw Hl IH]; intros g;
    rewrite AsGroup_loop_eq, Hw.
  - cbn [tl]. now rewrite app_nil_r.
  - rewrite Hc, (Group_Append_one_Errors g w Hg). unfold appended_member.
    change (errors_As to_Error (Some w)) with (errors_As to_Canonical (Some w)).
    rewrite Hc, Canonical_Wrap_some. reflexivity.
  - rewrite errors_As_Canonical_self, IH.
    rewrite (Group_Append_one_Errors g (ECanonical w)
                                     (wrap_chain_holds_no_Group w l Hl)).
    destruct (wrap_chain_head w l Hl) as [t ->]. cbn [tl].
    now rewrite <- app_assoc.
Qed.

Lemma AsGroup_wrap_chain_Errors (c : Canonical) (l : list Canonical) :
  wrap_chain c l -> Errors (Canonical_AsGroup c) = l.
Proof.
  intros Hl. unfold Canonical_AsGroup. rewrite (AsGroup_loop_wrap_chain c l Hl).
  rewrite NewGroup_cons_Errors, (wrap_chain_holds_no_Group c l Hl), NewGroup_nil.
  destruct (wrap_chain_head c l Hl) as [t ->]. reflexivity.
Qed.

(** X1.  [AsGroup] on a wrap chain: when every link of [c] wraps nothing,
    the next link itself, or a last error from which neither a group nor
    a [Canonical] is reached, the group holds [c] and the links below it
    in wrap order, the last error wrapped by [ErrUnknown], and nothing
    else. *)
Theorem X1_AsGroup_wrap_chain (c : Canonical) (l : list Canonical) :
  wrap_chain c l ->
  Errors (Canonical_AsGroup c) = l /\
  Group_Len (Canonical_AsGroup c) = List.length l /\
  hd_error (Errors (Canonical_AsGroup c)) = Some c.
Proof.
  intros Hl.
  pose proof (AsGroup_wrap_chain_Errors c l Hl) as H.
  unfold Group_Len. rewrite H. repeat split.
  destruct (wrap_chain_head c l Hl) as [t ->]. reflexivity.
Qed.

Lemma X1_witness :
  Errors (Canonical_AsGroup
            (mkCanonical "top" Extras.zero 0%Z "failed" "svc"
                         (Some (ECanonical (Canonical_Wrap not_found
                                              (Some (Foreign "disk full" None)))))))
  = [mkCanonical "top" Extras.zero 0%Z "failed" "svc"
                 (Some (ECanonical (Canonical_Wrap not_found
                                      (Some (Foreign "disk full" None)))));
     Canonical_Wrap not_found (Some (Foreign "disk full" None));
     unknown_wrapping (Foreign "disk full" None)].
Proof.
  apply X1_AsGroup_wrap_chain.
  eapply wrap_chain_link; [reflexivity|].
  eapply wrap_chain_cause; reflexivity.
Defined.

Lemma AsGroup_loop_invariant (g : Group) (err : Canonical) :
  flat g -> flat (AsGroup_loop g err) /\
            Formatter (AsGroup_loop g err) = Formatter g.
Proof.
  funelim (AsGroup_loop g err); intros Hflat.
  - now split.
  - match goal with
    | IH : flat _ -> _ |- _ =>
        destruct (IH (Group_Append_flat _ _ Hflat)) as [Hf Hfmt]
    end.
    split; [exact Hf|]. rewrite Hfmt. apply Group_Append_Formatter.
  - split; [now apply Group_Append_flat | apply Group_Append_Formatter].
Qed.

Lemma AsGroup_loop_prefix (g : Group) (err : Canonical) :
  exists added, Errors (AsGroup_loop g err) = (Errors g ++ added)%list.
Proof.
  funelim (AsGroup_loop g err).
  - exists []. now rewrite app_nil_r.
  - match goal with
    | IH : exists _, _ |- _ => destruct IH as [added IH]; rewrite IH
    end.
    rewrite Group_Append_Errors, <- app_assoc. eauto.
  - rewrite Group_Append_Errors. eauto.
Qed.

Lemma AsGroup_Formatter (c : Canonical) :
  Formatter (Canonical_AsGroup c) = FormatterDefault.
Proof.
  unfold Canonical_AsGroup.
  destruct (AsGroup_loop_invariant (NewGroup [Some (ECanonical c)]) c
                                   (NewGroup_flat _)) as [_ ->].
  unfold NewGroup. apply Group_Append_Formatter.
Qed.

(** X2.  Whatever [c] wraps, the group [AsGroup] returns is flat (no
    group is reached from any of its members) and carries the default
    formatter; when no group is reached from [c], its first member is
    [c]. *)
Theorem X2_AsGroup_flat (c : Canonical) :
  flat (Canonical_AsGroup c) /\
  Formatter (Canonical_AsGroup c) = FormatterDefault /\
  (holds_no_Group c -> hd_error (Errors (Canonical_AsGroup c)) = Some c).
Proof.
  unfold Canonical_AsGroup.
  destruct (AsGroup_loop_invariant (NewGroup [Some (ECanonical c)]) c
                                   (NewGroup_flat _)) as [Hf Hfmt].
  split; [exact Hf|]. split.
  - rewrite Hfmt. unfold NewGroup. apply Group_Append_Formatter.
  - intros Hc.
    destruct (AsGroup_loop_prefix (NewGroup [Some (ECanonical c)]) c) as [added ->].
    rewrite NewGroup_cons_Errors, Hc, NewGroup_nil. reflexivity.
Qed.

Lemma X2_witness :
  hd_error (Errors (Canonical_AsGroup wraps_foreign)) = Some wraps_foreign.
Proof.
  apply (proj2 (proj2 (X2_AsGroup_flat wraps_foreign))). reflexivity.
Defined.


(** ** Is, Equal and Wrap *)

Lemma Canonical_Equal_true (a b : Canonical) :
  Canonical_Equal a (Some (ECanonical b)) = true <->
  Code a = Code b /\ Message a = Message b /\ Namespace a = Namespace b /\
  Flags a = Flags b /\ Extras a = Extras b.
Proof.
  rewrite Canonical_Equal_Canonical.
  rewrite !andb_true_iff, !String.eqb_eq, Z.eqb_eq, Extras_DeepEqual_eq. tauto.
Qed.

(** X3.  [Is] answers as [Equal] does on every target, nil included: both
    compare the receiver with the first [Canonical] reached from the
    target, so a target from which none is reached never matches. *)
Theorem X3_Is_is_Equal (c : Canonical) (target : option error) :
  Canonical_Is c target = Canonical_Equal c target /\
  (errors_As to_Canonical target = None -> Canonical_Is c target = false) /\
  Canonical_Is c None = false.
Proof.
  unfold Canonical_Is, Canonical_Equal.
  destruct (errors_As to_Canonical target) as [ce|] eqn:Has.
  - rewrite errors_As_Canonical_self. repeat split. discriminate.
  - repeat split.
Qed.

Lemma X3_witness :
  Canonical_Is member_a (Some (Foreign "disk full" None)) = false.
Proof.
  apply (proj1 (proj2 (X3_Is_is_Equal member_a (Some (Foreign "disk full" None))))).
  reflexivity.
Defined.

(** X4.  On [Canonical] values [Equal] is an equivalence: reflexive,
    symmetric and transitive; two [Equal] values have the same [Key]. *)
Theorem X4_Equal_equivalence :
  (forall a : Canonical, Canonical_Equal a (Some (ECanonical a)) = true) /\
  (forall a b : Canonical,
      Canonical_Equal a (Some (ECanonical b)) =
      Canonical_Equal b (Some (ECanonical a))) /\
  (forall a b c : Canonical,
      Canonical_Equal a (Some (ECanonical b)) = true ->
      Canonical_Equal b (Some (ECanonical c)) = true ->
      Canonical_Equal a (Some (ECanonical c)) = true) /\
  (forall a b : Canonical,
      Canonical_Equal a (Some (ECanonical b)) = true ->
      Canonical_Key a = Canonical_Key b).
Proof.
  split; [|split; [|split]].
  - intros a. now apply Canonical_Equal_true.
  - intros a b.
    destruct (Canonical_Equal b (Some (ECanonical a))) eqn:Hba.
    + apply Canonical_Equal_true in Hba. apply Canonical_Equal_true.
      intuition congruence.
    + destruct (Canonical_Equal a (Some (ECanonical b))) eqn:Hab; [|reflexivity].
      apply Canonical_Equal_true in Hab.
      assert (Canonical_Equal b (Some (ECanonical a)) = true)
        by (apply Canonical_Equal_true; intuition congruence).
      congruence.
  - intros a b c Hab Hbc. apply Canonical_Equal_true in Hab, Hbc.
    apply Canonical_Equal_true. intuition congruence.
  - intros a b Hab. apply Canonical_Equal_true in Hab.
    unfold Canonical_Key. destruct Hab as (-> & _ & -> & _). reflexivity.
Qed.

Lemma X4_witness :
  Canonical_Key (with_Wrapped member_a (Some (Foreign "disk full" None))) =
  Canonical_Key member_a.
Proof.
  apply (proj2 (proj2 (proj2 X4_Equal_equivalence))). reflexivity.
Defined.

(** X5.  [Wrap] keeps the kind and replaces the cause: wrapping nil
    returns the receiver; wrapping a non-nil error gives a value that
    [Is] the receiver (also when it is itself wrapped by a foreign
    error), has the receiver's [Key], and unwraps to exactly that error;
    a second [Wrap] replaces the first cause instead of chaining it. *)
Theorem X5_Wrap_keeps_kind (c : Canonical) (err : error) :
  Canonical_Wrap c None = c /\
  Canonical_Is (Canonical_Wrap c (Some err)) (Some (ECanonical c)) = true /\
  (forall text,
      Canonical_Is c (Some (Foreign text (Some (ECanonical (Canonical_Wrap c (Some err))))))
      = true) /\
  Canonical_Key (Canonical_Wrap c (Some err)) = Canonical_Key c /\
  Canonical_Unwrap (Canonical_Wrap c (Some err)) = Some err /\
  (forall err2,
      Canonical_Wrap (Canonical_Wrap c (Some err)) (Some err2) =
      Canonical_Wrap c (Some err2)).
Proof.
  split; [reflexivity|]. rewrite Canonical_Wrap_some.
  split; [|split; [|split; [|split]]].
  - unfold Canonical_Is. rewrite errors_As_Canonical_self.
    now apply Canonical_Equal_true.
  - intros text. unfold Canonical_Is.
    rewrite errors_As_step. cbn [to_Canonical errors_Unwrap].
    rewrite errors_As_Canonical_self. now apply Canonical_Equal_true.
  - reflexivity.
  - reflexivity.
  - intros err2. now rewrite !Canonical_Wrap_some.
Qed.

(** ** With-updates *)

(** X6.  [WithExtras], [WithFlags] and [WithTags] leave the [Key], the
    wrapped error and the rendered text as they were; [WithFlags] only
    adds flags (a flag the receiver has is kept) and two calls are one
    call with the union of the flags. *)
Theorem X6_With_updates (custom : nat -> list Canonical -> option string)
        (c : Canonical) :
  (forall extras,
      Canonical_Key (Canonical_WithExtras c extras) = Canonical_Key c /\
      Canonical_Unwrap (Canonical_WithExtras c extras) = Canonical_Unwrap c /\
      Canonical_Error custom (Canonical_WithExtras c extras) = Canonical_Error custom c) /\
  (forall flags,
      Canonical_Key (Canonical_WithFlags c flags) = Canonical_Key c /\
      Canonical_Unwrap (Canonical_WithFlags c flags) = Canonical_Unwrap c /\
      Canonical_Error custom (Canonical_WithFlags c flags) = Canonical_Error custom c) /\
  (forall tags,
      Canonical_Key (Canonical_WithTags c tags) = Canonical_Key c /\
      Canonical_Unwrap (Canonical_WithTags c tags) = Canonical_Unwrap c /\
      Canonical_Error custom (Canonical_WithTags c tags) = Canonical_Error custom c) /\
  (forall flags bits,
      Flags.Has (Flags c) bits = true ->
      Flags.Has (Flags (Canonical_WithFlags c flags)) bits = true) /\
  (forall f1 f2,
      Canonical_WithFlags (Canonical_WithFlags c f1) f2 =
      Canonical_WithFlags c (Z.lor f1 f2)).
Proof.
  split; [|split; [|split; [|split]]]; try (intros; repeat split; reflexivity).
  - intros flags bits. cbn [Canonical_WithFlags Flags].
    rewrite !Flags_Has_true. unfold Flags.Set_.
    rewrite Z.land_lor_distr_l, Z.lor_eq_0_iff. tauto.
  - intros f1 f2. unfold Canonical_WithFlags, Flags.Set_. cbn.
    now rewrite Z.lor_assoc.
Qed.

Lemma X6_witness :
  Flags.Has (Flags (Canonical_WithFlags member_b FlagTimeout)) FlagRetryable = true.
Proof.
  apply (proj1 (proj2 (proj2 (proj2 (X6_With_updates (fun _ _ => None) member_b))))).
  reflexivity.
Defined.

Lemma append_strings_nil (s : strings) : append_strings s [] = s.
Proof. destruct s as [l|]; cbn; [now rewrite app_nil_r | reflexivity]. Qed.

Lemma append_strings_app (s : strings) (a b : list string) :
  append_strings (append_strings s a) b = append_strings s (a ++ b).
Proof.
  destruct s as [l|]; cbn.
  - destruct a, b; cbn; now rewrite <- ?app_assoc.
  - destruct a as [|x a]; cbn; [now destruct b|]. reflexivity.
Qed.

Lemma entries_append_strings (s : strings) (more : list string) :
  entries (append_strings s more) = (entries s ++ more)%list.
Proof. destruct s as [l|], more; reflexivity. Qed.

(** X7.  [WithTags] with no tag returns the receiver unchanged (a nil
    [Tags] stays nil), so the result is [Equal] to it; tags accumulate in
    call order: two calls are one call with the tags of both. *)
Theorem X7_WithTags (c : Canonical) :
  Canonical_WithTags c [] = c /\
  Canonical_Equal (Canonical_WithTags c []) (Some (ECanonical c)) = true /\
  (forall t1 t2,
      Canonical_WithTags (Canonical_WithTags c t1) t2 =
      Canonical_WithTags c (t1 ++ t2)) /\
  (forall tags,
      entries (Extras.Tags (Extras (Canonical_WithTags c tags))) =
      (entries (Extras.Tags (Extras c)) ++ tags)%list).
Proof.
  assert (Hnil : Canonical_WithTags c [] = c).
  { unfold Canonical_WithTags, Extras.WithTags. rewrite append_strings_nil.
    now destruct c as [code [d l st t] f m n w]. }
  split; [exact Hnil|]. split; [|split].
  - rewrite Hnil. now apply Canonical_Equal_true.
  - intros t1 t2. unfold Canonical_WithTags, Extras.WithTags. cbn.
    now rewrite append_strings_app.
  - intros tags. cbn. apply entries_append_strings.
Qed.

(** ** Copy *)

(** X8.  [Copy] is idempotent: copying a copy changes nothing, whatever
    the receiver wraps. *)
Theorem X8_Copy_idempotent (c : Canonical) :
  Canonical_Copy (Canonical_Copy c) = Canonical_Copy c.
Proof.
  remember (size (ECanonical c)) as n eqn:Hn. revert c Hn.
  induction n as [n IH] using lt_wf_ind. intros c ->.
  rewrite (Canonical_Copy_eq c).
  destruct (Wrapped c) as [w|] eqn:Hw.
  - destruct (errors_As to_Canonical (Some w)) as [wrapped|] eqn:Has.
    + rewrite Canonical_Copy_eq. cbn [Wrapped Code Extras Flags Message Namespace].
      rewrite errors_As_Canonical_self.
      rewrite (IH (size (ECanonical wrapped))); [reflexivity | | reflexivity].
      apply errors_As_Canonical_size in Has.
      cbn [size] in *. unfold wrapped_size_with at 2. rewrite Hw. lia.
    + rewrite Canonical_Copy_eq. cbn [Wrapped Code Extras Flags Message Namespace].
      rewrite ?Hw, Has. reflexivity.
  - rewrite Canonical_Copy_eq. cbn [Wrapped Code Extras Flags Message Namespace].
    rewrite ?Hw. reflexivity.
Qed.


(** ** Flags, composed *)

(** X9.  How the flag operations compose: no value has the empty set of
    bits; after [Set] of a non-empty set the value has it, after [Clear]
    it has not; [Clear] undoes [Set] on the bits and [Set] overrides
    [Clear]; [Set] is idempotent and [Toggle] is its own inverse. *)
Theorem X9_Flags_compose (f bits : Flags.t) :
  Flags.Has f 0%Z = false /\
  (bits <> 0%Z -> Flags.Has (Flags.Set_ f bits) bits = true) /\
  Flags.Has (Flags.Clear f bits) bits = false /\
  Flags.Clear (Flags.Set_ f bits) bits = Flags.Clear f bits /\
  Flags.Set_ (Flags.Clear f bits) bits = Flags.Set_ f bits /\
  Flags.Set_ (Flags.Set_ f bits) bits = Flags.Set_ f bits /\
  Flags.Toggle (Flags.Toggle f bits) bits = f.
Proof.
  unfold Flags.Has, Flags.Set_, Flags.Clear, Flags.Toggle.
  split; [now rewrite Z.land_0_r|].
  split; [|split; [|split; [|split; [|split]]]].
  - intros Hb. apply negb_true_iff, Z.eqb_neq.
    replace (Z.land (Z.lor f bits) bits) with bits; [exact Hb|].
    apply Z.bits_inj'. intros n _. rewrite Z.land_spec, Z.lor_spec.
    now destruct (Z.testbit f n), (Z.testbit bits n).
  - apply negb_false_iff, Z.eqb_eq.
    apply Z.bits_inj'. intros n _. rewrite Z.land_spec, Z.ldiff_spec, Z.bits_0.
    now destruct (Z.testbit f n), (Z.testbit bits n).
  - apply Z.bits_inj'. intros n _. rewrite !Z.ldiff_spec, Z.lor_spec.
    now destruct (Z.testbit f n), (Z.testbit bits n).
  - apply Z.bits_inj'. intros n _. rewrite !Z.lor_spec, Z.ldiff_spec.
    now destruct (Z.testbit f n), (Z.testbit bits n).
  - apply Z.bits_inj'. intros n _. rewrite !Z.lor_spec.
    now destruct (Z.testbit f n), (Z.testbit bits n).
  - apply Z.bits_inj'. intros n _. rewrite !Z.lxor_spec.
    now destruct (Z.testbit f n), (Z.testbit bits n).
Qed.

Lemma X9_witness :
  Flags.Has (Flags.Set_ FlagUnknown FlagTimeout) FlagTimeout = true.
Proof.
  apply (proj1 (proj2 (X9_Flags_compose FlagUnknown FlagTimeout))).
  discriminate.
Defined.

Lemma parse_binary_from_app (s t : string) :
  forall acc,
    parse_binary_from acc (s ++ t) =
    match parse_binary_from acc s with
    | Some a => parse_binary_from a t
    | None => None
    end.
Proof.
  induction s as [|c s IH]; intros acc; cbn; [reflexivity|].
  destruct (Ascii.eqb c "0"); [apply IH|].
  destruct (Ascii.eqb c "1"); [apply IH | reflexivity].
Qed.

Lemma parse_binary_from_positive (p : positive) :
  parse_binary_from 0 (positive_binary p) = Some (Zpos p).
Proof.
  induction p as [q IH | q IH |]; cbn [positive_binary]; try reflexivity;
    rewrite parse_binary_from_app, IH; reflexivity.
Qed.

Lemma positive_binary_leading (p : positive) :
  exists rest, positive_binary p = String "1" rest.
Proof.
  induction p as [q [rest IH] | q [rest IH] |]; cbn [positive_binary];
    try rewrite IH; cbn; eauto.
Qed.

(** X10.  The text of a flags value is its binary numeral: reading the
    digits back gives the value, the text of zero is ["0"], and the text
    of any other value starts with the digit 1 (no leading zero). *)
Theorem X10_Flags_String_round_trip (f : Flags.t) :
  (0 <= f)%Z ->
  parse_binary (Flags_String f) = Some f /\
  (f = 0%Z -> Flags_String f = "0") /\
  (f <> 0%Z -> exists rest, Flags_String f = String "1" rest).
Proof.
  intros Hf. unfold Flags_String, strconv_FormatUint_2.
  destruct f as [|p|p]; try lia.
  - repeat split. congruence.
  - split; [|split; [discriminate|]].
    + destruct (positive_binary_leading p) as [rest Hp].
      pose proof (parse_binary_from_positive p) as Hparse.
      unfold parse_binary. now rewrite Hp in *.
    + intros _. apply positive_binary_leading.
Qed.

Lemma X10_witness :
  parse_binary (Flags_String (Z.lor FlagRetryable FlagTimeout)) =
  Some (Z.lor FlagRetryable FlagTimeout) /\
  Flags_String (Z.lor FlagRetryable FlagTimeout) = "110".
Proof.
  split.
  - apply (proj1 (X10_Flags_String_round_trip (Z.lor FlagRetryable FlagTimeout)
                                              ltac:(cbn; lia))).
  - reflexivity.
Defined.

(** ** Extras *)

(** X11.  [Links] and [Tags] only grow: the entries after [WithLinks] or
    [WithTags] are the old entries followed by the new ones, two calls
    are one call with both lists, and a call with nothing leaves the
    value as it was; each builder leaves the other three fields alone, so
    builders of different fields commute. *)
Theorem X11_Extras_builders (e : Extras.t) :
  (forall links,
      entries (Extras.Links (Extras.WithLinks e links)) =
      (entries (Extras.Links e) ++ links)%list) /\
  (forall tags,
      entries (Extras.Tags (Extras.WithTags e tags)) =
      (entries (Extras.Tags e) ++ tags)%list) /\
  (forall l1 l2,
      Extras.WithLinks (Extras.WithLinks e l1) l2 = Extras.WithLinks e (l1 ++ l2)) /\
  (forall t1 t2,
      Extras.WithTags (Extras.WithTags e t1) t2 = Extras.WithTags e (t1 ++ t2)) /\
  (Extras.WithLinks e [] = e /\ Extras.WithTags e [] = e) /\
  (forall links tags delay trace,
      Extras.WithLinks (Extras.WithTags (Extras.WithDelay
                                           (Extras.WithStackTrace e trace) delay)
                                        tags) links =
      Extras.WithStackTrace (Extras.WithDelay (Extras.WithTags
                                                 (Extras.WithLinks e links) tags)
                                              delay) trace) /\
  (forall d1 d2, Extras.WithDelay (Extras.WithDelay e d1) d2 = Extras.WithDelay e d2).
Proof.
  destruct e as [d l st t].
  unfold Extras.WithLinks, Extras.WithTags, Extras.WithDelay, Extras.WithStackTrace.
  cbn. repeat split; intros;
    rewrite ?entries_append_strings, ?append_strings_app, ?append_strings_nil;
    reflexivity.
Qed.

(** ** Groups *)

(** X12.  On a possibly nil group, [Empty], a nil [ErrorOrNil] and a nil
    [Unwrap] are the same condition: the group is nil or its [Len] is
    zero. *)
Theorem X12_Empty_ErrorOrNil_Unwrap (g : option Group) :
  (Group_Empty g = true <-> Group_ErrorOrNil g = None) /\
  (Group_Empty g = true <-> Group_Unwrap g = None) /\
  (Group_Empty g = true <->
   match g with Some g' => Group_Len g' = 0 | None => True end).
Proof.
  destruct g as [g'|]; [|now repeat split].
  unfold Group_Empty, Group_ErrorOrNil, Group_Unwrap, Group_Len.
  destruct (Errors g') as [|c [|c' t]]; cbn [List.length Nat.eqb];
    repeat split; intros H; try reflexivity; discriminate.
Qed.

Lemma X12_witness : Group_Unwrap (Some (NewGroup [None; None])) = None.
Proof.
  apply (proj1 (proj2 (X12_Empty_ErrorOrNil_Unwrap (Some (NewGroup [None; None]))))).
  reflexivity.
Defined.

(** X13.  [Append] never removes a member and keeps the formatter; when
    no argument reaches a group it adds exactly one member for each
    argument that is not nil, so nil arguments add nothing. *)
Theorem X13_Append_counts (errs : list (option error)) (g : Group) :
  Group_Len g <= Group_Len (Group_Append g errs) /\
  Formatter (Group_Append g errs) = Formatter g /\
  (Forall plain_argument errs ->
   Group_Len (Group_Append g errs) =
   Group_Len g + List.length (filter non_nil errs)).
Proof.
  unfold Group_Len. split; [|split].
  - rewrite Group_Append_Errors, length_app. lia.
  - apply Group_Append_Formatter.
  - intros Hplain. revert g.
    induction Hplain as [|[err|] rest Hp Hrest IH]; intros g.
    + rewrite Group_Append_nil. cbn. lia.
    + cbn [plain_argument] in Hp. rewrite Group_Append_cons, Hp. cbn zeta.
      rewrite IH. cbn [Errors filter non_nil List.length].
      rewrite length_app. cbn. lia.
    + rewrite Group_Append_skip, IH. reflexivity.
Qed.

Lemma X13_witness :
  Group_Len (Group_Append (mkGroup [member_a] FormatterNil)
                          [None; Some (Foreign "disk full" None); None;
                           Some (ECanonical member_b)]) = 3.
Proof.
  apply (proj2 (proj2 (X13_Append_counts
                         [None; Some (Foreign "disk full" None); None;
                          Some (ECanonical member_b)]
                         (mkGroup [member_a] FormatterNil)))).
  repeat constructor.
Defined.

(** X14.  A group built by [NewGroup] can be passed on without loss: a
    new group made from it, or from its [Slice], has the same members in
    the same order; appending a flat group to itself doubles its
    members; [Slice] has one non-nil entry for each member. *)
Theorem X14_regrouping (errs : list (option error)) :
  Errors (NewGroup [Some (EGroup (NewGroup errs))]) = Errors (NewGroup errs) /\
  Errors (NewGroup (Group_Slice (NewGroup errs))) = Errors (NewGroup errs) /\
  (forall g : Group,
      flat g ->
      Errors (Group_Append g [Some (EGroup g)]) = (Errors g ++ Errors g)%list) /\
  (forall g : Group,
      List.length (Group_Slice g) = Group_Len g /\
      Forall (fun o => non_nil o = true) (Group_Slice g)).
Proof.
  split; [|split; [|split]].
  - rewrite NewGroup_cons_Errors, errors_As_Group_self, NewGroup_nil.
    cbn [Errors]. rewrite app_nil_r. apply NewGroup_Slice_flat, NewGroup_flat.
  - apply NewGroup_Slice_flat, NewGroup_flat.
  - intros g Hg.
    rewrite Group_Append_Errors, NewGroup_cons_Errors, errors_As_Group_self.
    rewrite NewGroup_nil. cbn [Errors]. rewrite app_nil_r.
    now rewrite (NewGroup_Slice_flat g Hg).
  - intros g. unfold Group_Slice, Group_Len. split; [apply length_map|].
    apply Forall_forall. intros o Ho. apply in_map_iff in Ho as (c & <- & _).
    reflexivity.
Qed.

Lemma X14_witness :
  Errors (Group_Append (mkGroup [member_a; member_b] FormatterDefault)
                       [Some (EGroup (mkGroup [member_a; member_b] FormatterDefault))])
  = [member_a; member_b; member_a; member_b].
Proof.
  apply (proj1 (proj2 (proj2 (X14_regrouping []))) (mkGroup [member_a; member_b] FormatterDefault)).
  repeat constructor.
Defined.

(** ** Join *)

(** The members [Append] adds for arguments that reach no group: one for
    each argument that is not nil. *)
Lemma NewGroup_plain_Errors (errs : list (option error)) :
  Forall plain_argument errs ->
  Errors (NewGroup errs) =
  flat_map (fun o => match o with
                     | Some e => [appended_member e]
                     | None => []
                     end) errs.
Proof.
  induction 1 as [|[e|] rest Hp Hrest IH]; cbn [flat_map].
  - now rewrite NewGroup_nil.
  - cbn [plain_argument] in Hp. now rewrite NewGroup_cons_Errors, Hp, IH.
  - now rewrite NewGroup_skip, IH.
Qed.

(** X15.  [Join] with a nil first error is [NewGroup] of the others; when
    no group is reached from the first error it is [NewGroup] of all of
    them.  When a group is reached, [Join] appends to that group, keeping
    its formatter and its members as a prefix; if moreover no argument of
    [errs] reaches a group (so none reaches that group again), it adds
    one member for each argument that is not nil, and if that group is
    flat the result is flat and has the members of [NewGroup] of all the
    errors. *)
Theorem X15_Join (err : option error) (errs : list (option error)) :
  Join None errs = NewGroup errs /\
  (errors_As to_Group err = None -> Join err errs = NewGroup (err :: errs)) /\
  (forall g,
      errors_As to_Group err = Some g ->
      Formatter (Join err errs) = Formatter g /\
      (exists added, Errors (Join err errs) = (Errors g ++ added)%list) /\
      (Forall plain_argument errs ->
       Errors (Join err errs) =
         (Errors g ++ flat_map (fun o => match o with
                                         | Some e => [appended_member e]
                                         | None => []
                                         end) errs)%list /\
       (flat g -> Errors (Join err errs) = Errors (NewGroup (err :: errs)) /\
                  flat (Join err errs)))).
Proof.
  assert (Hdefault : forall e, Group_Append (NewGroup [e]) errs = NewGroup (e :: errs)).
  { intros e. unfold NewGroup. now rewrite <- Group_Append_app. }
  split; [|split].
  - unfold Join. cbn [errors_As unwrap_chain_opt first_assignable].
    rewrite Hdefault. apply NewGroup_skip.
  - intros Hno. unfold Join. rewrite Hno. apply Hdefault.
  - intros g Has. unfold Join. rewrite Has. split; [|split].
    + apply Group_Append_Formatter.
    + exists (Errors (NewGroup errs)). apply Group_Append_Errors.
    + intros Hplain. split.
      * now rewrite Group_Append_Errors, (NewGroup_plain_Errors errs Hplain).
      * intros Hflat. split; [|now apply Group_Append_flat].
        destruct err as [e|]; [|discriminate].
        rewrite Group_Append_Errors, NewGroup_cons_Errors, Has.
        now rewrite (NewGroup_Slice_flat g Hflat).
Qed.

Lemma X15_witness :
  Join (Some (Foreign "disk full" None)) [Some (ECanonical member_a)] =
  NewGroup [Some (Foreign "disk full" None); Some (ECanonical member_a)] /\
  Errors (Join (Some (ECanonical wraps_group))
               [Some (ECanonical not_found); None; Some (Foreign "disk full" None)]) =
  [member_a; member_b; not_found; unknown_wrapping (Foreign "disk full" None)].
Proof.
  split.
  - apply (proj1 (proj2 (X15_Join (Some (Foreign "disk full" None))
                                  [Some (ECanonical member_a)]))).
    reflexivity.
  - apply (proj1 (proj2 (proj2 (proj2 (proj2
             (X15_Join (Some (ECanonical wraps_group))
                       [Some (ECanonical not_found); None;
                        Some (Foreign "disk full" None)]))
             (mkGroup [member_a; member_b] FormatterDefault) eq_refl))
           ltac:(repeat constructor))).
Defined.

(** ** Groups under errors.As *)

(** X16.  Downcasting a group or a chain to [Canonical] gives its first
    member and fails when it has none, so [Is] on a group compares with
    its first member only; what [Unwrap] returns for a group with members
    renders as the first member does. *)
Theorem X16_group_first_member (custom : nat -> list Canonical -> option string)
        (g : Group) :
  errors_As to_Canonical (Some (EGroup g)) = hd_error (Errors g) /\
  (forall l, errors_As to_Canonical (Some (EChain l)) = hd_error l) /\
  (forall a : Canonical,
      Canonical_Is a (Some (EGroup g)) =
      match hd_error (Errors g) with
      | Some b => Canonical_Equal a (Some (ECanonical b))
      | None => false
      end) /\
  (forall c, hd_error (Errors g) = Some c ->
             exists e, Group_Unwrap (Some g) = Some e /\
                       error_Error custom e = Canonical_Error custom c).
Proof.
  assert (Hg : errors_As to_Canonical (Some (EGroup g)) = hd_error (Errors g)).
  { unfold errors_As. cbn [unwrap_chain_opt unwrap_chain first_assignable to_Canonical].
    destruct (Errors g) as [|c [|c' t]]; reflexivity. }
  split; [exact Hg|]. split; [|split].
  - intros [|c [|c' t]]; reflexivity.
  - intros a. unfold Canonical_Is. rewrite Hg.
    destruct (hd_error (Errors g)); reflexivity.
  - intros c Hc. unfold Group_Unwrap.
    destruct (Errors g) as [|c0 [|c' t]]; cbn in Hc; try discriminate;
      injection Hc as ->; eexists; split; reflexivity.
Qed.

Lemma X16_witness :
  exists e,
    Group_Unwrap (Some (mkGroup [member_a; member_b] FormatterNil)) = Some e /\
    error_Error (fun _ _ => None) e = Some "[svc:a] first".
Proof.
  apply (proj2 (proj2 (proj2 (X16_group_first_member
                                (fun _ _ => None)
                                (mkGroup [member_a; member_b] FormatterNil))))
               member_a).
  reflexivity.
Defined.


(** ** Sorting *)

Lemma length_store {A : Type} (l : list A) :
  forall i x, List.length (store l i x) = List.length l.
Proof.
  induction l as [|y t IH]; intros [|k] x; cbn; try reflexivity.
  now rewrite IH.
Qed.

Lemma nth_error_store {A : Type} (l : list A) :
  forall i x k,
    i < List.length l ->
    nth_error (store l i x) k = if (i =? k)%nat then Some x else nth_error l k.
Proof.
  induction l as [|y t IH]; intros [|i] x [|k] Hi; cbn in *; try lia;
    try reflexivity.
  apply IH. lia.
Qed.

Lemma nth_error_in_range {A : Type} (l : list A) (n : nat) (a : A) :
  nth_error l n = Some a -> n < List.length l.
Proof. intros H. apply nth_error_Some. congruence. Qed.

Lemma index_Some {A : Type} (l : list A) (i : Z) (a : A) :
  index l i = Some a <-> (0 <= i)%Z /\ nth_error l (Z.to_nat i) = Some a.
Proof.
  unfold index. destruct (Z.ltb_spec i 0); split; try discriminate;
    intuition lia.
Qed.

Lemma index_None {A : Type} (l : list A) (i : Z) :
  index l i = None <-> ~ (0 <= i < Z.of_nat (List.length l))%Z.
Proof.
  unfold index. destruct (Z.ltb_spec i 0).
  - split; [lia | reflexivity].
  - rewrite nth_error_None. lia.
Qed.

(** Exchanging two entries of a list. *)
Lemma store_exchange {A : Type} (l : list A) (n m : nat) (a b : A) :
  nth_error l n = Some a -> nth_error l m = Some b ->
  forall k,
    nth_error (store (store l n b) m a) k =
    if (m =? k)%nat then Some a
    else if (n =? k)%nat then Some b else nth_error l k.
Proof.
  intros Hn Hm k.
  rewrite nth_error_store
    by (rewrite length_store; eapply nth_error_in_range; eauto).
  rewrite nth_error_store by (eapply nth_error_in_range; eauto).
  reflexivity.
Qed.

(** X17.  [Swap] panics exactly when an index is out of range; otherwise
    it exchanges the members at [i] and [j], leaves every other member,
    the length and the formatter as they were, and a second [Swap] of the
    same indices restores the group. *)
Theorem X17_Swap (g : Group) (i j : Z) :
  (Group_Swap g i j = None <->
   ~ ((0 <= i < Z.of_nat (Group_Len g))%Z /\ (0 <= j < Z.of_nat (Group_Len g))%Z)) /\
  (forall g',
      Group_Swap g i j = Some g' ->
      Group_Len g' = Group_Len g /\
      Formatter g' = Formatter g /\
      index (Errors g') i = index (Errors g) j /\
      index (Errors g') j = index (Errors g) i /\
      (forall k, k <> i -> k <> j -> index (Errors g') k = index (Errors g) k) /\
      Group_Swap g' i j = Some g).
Proof.
  unfold Group_Swap, Group_Len. split.
  - destruct (index (Errors g) i) as [a|] eqn:Hi.
    + destruct (index (Errors g) j) as [b|] eqn:Hj.
      * split; [discriminate|]. intros Hout. exfalso. apply Hout.
        split.
        -- destruct (Z_lt_le_dec i 0); [apply index_Some in Hi; lia|].
           destruct (Z_lt_le_dec i (Z.of_nat (List.length (Errors g)))); [lia|].
           assert (index (Errors g) i = None) by (apply index_None; lia).
           congruence.
        -- destruct (Z_lt_le_dec j 0); [apply index_Some in Hj; lia|].
           destruct (Z_lt_le_dec j (Z.of_nat (List.length (Errors g)))); [lia|].
           assert (index (Errors g) j = None) by (apply index_None; lia).
           congruence.
      * apply index_None in Hj. split; [tauto | reflexivity].
    + apply index_None in Hi. split; [tauto | reflexivity].
  - intros g'.
    destruct (index (Errors g) i) as [a|] eqn:Hi; [|discriminate].
    destruct (index (Errors g) j) as [b|] eqn:Hj; [|discriminate].
    intros [= <-]. cbn [Errors Formatter].
    apply index_Some in Hi as [Hi0 Hi], Hj as [Hj0 Hj].
    pose proof (store_exchange (Errors g) _ _ a b Hi Hj) as Hnth.
    assert (Hi' : index (store (store (Errors g) (Z.to_nat i) b) (Z.to_nat j) a) i
                  = Some b).
    { apply index_Some. split; [exact Hi0|]. rewrite Hnth.
      destruct (Nat.eqb_spec (Z.to_nat j) (Z.to_nat i)) as [E|_]; [|now rewrite Nat.eqb_refl].
      rewrite E in Hj. congruence. }
    assert (Hj' : index (store (store (Errors g) (Z.to_nat i) b) (Z.to_nat j) a) j
                  = Some a).
    { apply index_Some. split; [exact Hj0|]. rewrite Hnth. now rewrite Nat.eqb_refl. }
    split; [now rewrite !length_store|]. split; [reflexivity|].
    split; [rewrite Hi'; first [reflexivity | symmetry; now apply index_Some]|].
    split; [rewrite Hj'; first [reflexivity | symmetry; now apply index_Some]|].
    split.
    + intros k Hki Hkj. unfold index. destruct (Z.ltb_spec k 0); [reflexivity|].
      rewrite Hnth.
      destruct (Nat.eqb_spec (Z.to_nat j) (Z.to_nat k)); [lia|].
      destruct (Nat.eqb_spec (Z.to_nat i) (Z.to_nat k)); [lia|]. reflexivity.
    + rewrite Hi', Hj'. f_equal. destruct g as [l f]. cbn [Errors Formatter] in *.
      f_equal. apply nth_error_ext. intros k.
      apply index_Some in Hi' as [_ Hi'], Hj' as [_ Hj'].
      rewrite (store_exchange _ _ _ b a Hi' Hj'), Hnth.
      destruct (Nat.eqb_spec (Z.to_nat j) k) as [<-|]; [now rewrite Hj|].
      destruct (Nat.eqb_spec (Z.to_nat i) k) as [<-|]; [now rewrite Hi|].
      reflexivity.
Qed.

Lemma X17_witness :
  Group_Swap (mkGroup [member_b; member_a] FormatterDefault) 0 1 =
  Some (mkGroup [member_a; member_b] FormatterDefault) /\
  Group_Swap (mkGroup [member_a; member_b] FormatterDefault) 0 2 = None.
Proof.
  split.
  - apply (proj2 (X17_Swap (mkGroup [member_a; member_b] FormatterDefault) 0 1)
                 (mkGroup [member_b; member_a] FormatterDefault)).
    reflexivity.
  - apply (proj1 (X17_Swap (mkGroup [member_a; member_b] FormatterDefault) 0 2)).
    cbn. lia.
Defined.

(** X18.  [Less] orders members by their rendered text: no member is
    less than itself, two members are never each less than the other, and
    when neither is less than the other they render the same text; an
    index out of range panics. *)
Theorem X18_Less (custom : nat -> list Canonical -> option string)
        (g : Group) (i j : Z) :
  Group_Less custom g i i <> Some true /\
  (Group_Less custom g i j = Some true -> Group_Less custom g j i = Some false) /\
  (forall a b,
      index (Errors g) i = Some a -> index (Errors g) j = Some b ->
      Group_Less custom g i j = Some false ->
      Group_Less custom g j i = Some false ->
      Canonical_Error custom a = Canonical_Error custom b) /\
  (index (Errors g) i = None \/ index (Errors g) j = None ->
   Group_Less custom g i j = None).
Proof.
  unfold Group_Less. split; [|split; [|split]].
  - destruct (index (Errors g) i) as [a|]; [|discriminate].
    destruct (Canonical_Error custom a) as [x|]; [|discriminate].
    unfold String.ltb. pose proof (String.compare_antisym x x) as Hxx.
    destruct (String.compare x x); cbn in Hxx; discriminate.
  - destruct (index (Errors g) i) as [a|]; [|discriminate].
    destruct (index (Errors g) j) as [b|]; [|discriminate].
    destruct (Canonical_Error custom a) as [x|]; [|discriminate].
    destruct (Canonical_Error custom b) as [y|]; [|discriminate].
    unfold String.ltb. rewrite (String.compare_antisym x y).
    destruct (String.compare y x); cbn; congruence.
  - intros a b -> ->.
    destruct (Canonical_Error custom a) as [x|]; [|discriminate].
    destruct (Canonical_Error custom b) as [y|]; [|discriminate].
    unfold String.ltb. rewrite (String.compare_antisym x y).
    destruct (String.compare y x) eqn:Hc; cbn; try discriminate.
    intros _ _. f_equal. symmetry. now apply String.compare_eq_iff.
  - intros [-> | ->]; [reflexivity|]. now destruct (index (Errors g) i).
Qed.

Lemma X18_witness :
  Group_Less (fun _ _ => None) (mkGroup [member_a; member_b] FormatterDefault) 1 0
  = Some false.
Proof.
  apply (proj1 (proj2 (X18_Less (fun _ _ => None)
                                (mkGroup [member_a; member_b] FormatterDefault) 0 1))).
  reflexivity.
Defined.

(** ** Format *)

(** X19.  The verbs [s] and [q], and [v] without the plus flag, write the
    one-line text of [Error]; [v] with the plus flag writes the same text
    when nothing is wrapped, and for a wrap chain the default group text
    of its links; any other verb writes nothing. *)
Theorem X19_Format (custom : nat -> list Canonical -> option string)
        (c : Canonical) :
  (forall plus,
      Canonical_Format custom c plus "s" = Canonical_Error custom c /\
      Canonical_Format custom c plus "q" = Canonical_Error custom c) /\
  Canonical_Format custom c false "v" = Canonical_Error custom c /\
  (Wrapped c = None -> Canonical_Format custom c true "v" = Canonical_Error custom c) /\
  (forall l, wrap_chain c l ->
             Canonical_Format custom c true "v" = GroupFormatterDefault custom l) /\
  (forall plus verb,
      verb <> "v"%char -> verb <> "s"%char -> verb <> "q"%char ->
      Canonical_Format custom c plus verb = Some "").
Proof.
  assert (Hchain : forall l, wrap_chain c l ->
             Canonical_Format custom c true "v" = GroupFormatterDefault custom l).
  { intros l Hl. unfold Canonical_Format. cbn [Ascii.eqb Bool.eqb].
    unfold Group_Error, Group_Error_with.
    now rewrite (AsGroup_Formatter c), (AsGroup_wrap_chain_Errors c l Hl). }
  split; [|split; [|split; [|split]]].
  - intros plus. split; reflexivity.
  - reflexivity.
  - intros Hw. rewrite (Hchain [c] (wrap_chain_end c Hw)). reflexivity.
  - exact Hchain.
  - intros plus verb Hv Hs Hq. unfold Canonical_Format.
    apply Ascii.eqb_neq in Hv, Hs, Hq. now rewrite Hv, Hs, Hq.
Qed.

Lemma X19_witness :
  Canonical_Format (fun _ _ => None) member_a true "v" = Some "[svc:a] first" /\
  Canonical_Format (fun _ _ => None) member_a true "d" = Some "".
Proof.
  split.
  - apply (proj1 (proj2 (proj2 (X19_Format (fun _ _ => None) member_a)))).
    reflexivity.
  - apply (proj2 (proj2 (proj2 (proj2 (X19_Format (fun _ _ => None) member_a))))
                 true "d"%char); discriminate.
Defined.


(** ** Rendering without panic *)

Lemma error_Error_no_Group (custom : nat -> list Canonical -> option string)
      (e : error) :
  errors_As to_Group (Some e) = None ->
  exists text, error_Error custom e = Some text.
Proof.
  induction e as [text cause IH | c IH | g IH | l IH] using error_nested_ind;
    intros Hno.
  - cbn. eauto.
  - cbn [error_Error]. unfold Canonical_Error_with.
    rewrite errors_As_Group_Canonical in Hno.
    destruct (Wrapped c) as [w|]; [|eauto].
    destruct (IH Hno) as [t ->]. eauto.
  - discriminate.
  - cbn [error_Error]. unfold chain_Error_with.
    destruct l as [|c t]; [eauto|].
    assert (Hc : errors_As to_Group (Some (ECanonical c)) = None).
    { apply (errors_As_None_examined to_Group (EChain (c :: t))); [exact Hno|].
      cbn. auto. }
    unfold Canonical_Error_with. rewrite errors_As_Group_Canonical in Hc.
    inversion IH as [|? ? IHc _]; subst.
    destruct (Wrapped c) as [w|]; [|eauto].
    destruct (IHc Hc) as [t' ->]. eauto.
Qed.

Lemma GroupFormatterDefault_renders (custom : nat -> list Canonical -> option string)
      (l : list Canonical) :
  Forall holds_no_Group l ->
  exists text, GroupFormatterDefault custom l = Some text.
Proof.
  intros Hl.
  assert (Hpoints : exists points, points_with (error_Error custom) l = Some points).
  { induction Hl as [|c t Hc Ht [points IH]]; cbn [points_with]; [eauto|].
    destruct (error_Error_no_Group custom (ECanonical c) Hc) as [text Htext].
    cbn [error_Error] in Htext. rewrite Htext, IH. eauto. }
  unfold GroupFormatterDefault, GroupFormatterDefault_with.
  destruct Hpoints as [points ->].
  destruct l as [|c [|c' t]]; cbn [List.length]; eauto.
  inversion Hl as [|? ? Hc _]; subst.
  apply (error_Error_no_Group custom (ECanonical c) Hc).
Qed.

(** X20.  Rendering a member from which no group is reached never
    panics, so [Error] never panics on a flat group with the default
    formatter: not on a group built by [NewGroup], not on what [AsGroup]
    returns, and so not in [Format] for any verb and flag on a value from
    which no group is reached. *)
Theorem X20_Error_never_panics (custom : nat -> list Canonical -> option string) :
  (forall c : Canonical,
      holds_no_Group c -> exists text, Canonical_Error custom c = Some text) /\
  (forall g : Group,
      flat g -> Formatter g = FormatterDefault ->
      exists text, Group_Error custom g = Some text) /\
  (forall errs, exists text, Group_Error custom (NewGroup errs) = Some text) /\
  (forall c : Canonical,
      exists text, Group_Error custom (Canonical_AsGroup c) = Some text) /\
  (forall (c : Canonical) plus verb,
      holds_no_Group c ->
      exists text, Canonical_Format custom c plus verb = Some text).
Proof.
  assert (Hmember : forall c : Canonical,
             holds_no_Group c -> exists text, Canonical_Error custom c = Some text).
  { intros c Hc. apply (error_Error_no_Group custom (ECanonical c) Hc). }
  assert (Hgroup : forall g : Group,
             flat g -> Formatter g = FormatterDefault ->
             exists text, Group_Error custom g = Some text).
  { intros g Hflat Hfmt. unfold Group_Error, Group_Error_with. rewrite Hfmt.
    now apply GroupFormatterDefault_renders. }
  assert (HAsGroup : forall c : Canonical,
             exists text, Group_Error custom (Canonical_AsGroup c) = Some text).
  { intros c. apply Hgroup; [|apply AsGroup_Formatter].
    unfold Canonical_AsGroup.
    apply (AsGroup_loop_invariant _ c (NewGroup_flat _)). }
  split; [exact Hmember|]. split; [exact Hgroup|]. split; [|split].
  - intros errs. apply Hgroup; [apply NewGroup_flat|].
    unfold NewGroup. apply Group_Append_Formatter.
  - exact HAsGroup.
  - intros c plus verb Hc. unfold Canonical_Format.
    destruct (Ascii.eqb verb "v"); [destruct plus; auto|].
    destruct (Ascii.eqb verb "s"); [auto|].
    destruct (Ascii.eqb verb "q"); eauto.
Qed.

Lemma X20_witness :
  exists text,
    Canonical_Error (fun _ _ => None) wraps_foreign = Some text.
Proof.
  apply (proj1 (X20_Error_never_panics (fun _ _ => None)) wraps_foreign).
  reflexivity.
Defined.
